(** * GTools.util.scaleMatrix: integer rescaling of a two-dimensional grid

    A shallow embedding of [scaleMatrix] (src/GTools/util.py, lines 115-214)
    and of the handful of NumPy operations it is written with.

    Conventions of the embedding.
    - An [ndarray] is a shape together with an indexing function; only the
      cells inside the shape are meaningful.  [array] and [tolist] convert
      from and to nested lists.
    - The function is embedded on two kinds of cells.  [scaleMatrix] works
      on exact fractions ([Qc]); it carries what does not depend on
      rounding: which branch runs, what is raised, shapes, which cells an
      operation reads and writes, what is allocated, and the docstring's
      examples.  [F64.scaleMatrix] works on IEEE binary64 doubles (Rocq's
      primitive [float]), the numbers NumPy computes the averages with; it
      carries the statements about the value of an average, where rounding
      and overflow matter.
    - Python exceptions are values of [exn]; a call returns a [result].
    - [isclose] (lines 106-110 of the same file) is embedded on [Q].
    - [Obj.scaleMatrix] is the function on an object store, where arrays
      are referred to by reference and updated in place.
      [ObjFacts.scaleMatrix_refines] ties it to [scaleMatrix]. *)

From Stdlib Require Import Floats.
From Stdlib Require Import String Bool Arith ZArith QArith Qcanon Lia List.
From Stdlib Require Import Qabs Qminmax.
Import ListNotations.
Local Open Scope nat_scope.

(** Integer division and remainder are handled by [lia] through their
    Euclidean equations. *)
Ltac Zify.zify_post_hook ::= Z.to_euclidean_division_equations.

(* ------------------------------------------------------------------ *)
(** ** Exceptions and results *)

Inductive exn : Type :=
| ValueError (msg : string)
| IndexError (msg : string)
| GToolsError (msg : string).

Inductive result (A : Type) : Type :=
| Ok (a : A)
| Raise (e : exn).
Arguments Ok {A} a.
Arguments Raise {A} e.

Definition bind {A B} (r : result A) (k : A -> result B) : result B :=
  match r with
  | Ok a => k a
  | Raise e => Raise e
  end.

Notation "x <- r ;; k" := (bind r (fun x => k))
  (at level 61, r at next level, right associativity).
Notation "' pat <- r ;; k" := (bind r (fun x => match x with pat => k end))
  (at level 61, pat pattern, r at next level, right associativity).

(** [for x in xs: s = body x s], stopping at the first exception. *)
Fixpoint for_ {A S} (xs : list A) (body : A -> S -> result S) (s : S) : result S :=
  match xs with
  | [] => Ok s
  | x :: xs' => s' <- body x s ;; for_ xs' body s'
  end.

(** [range(n)] for a non-negative [n]. *)
Definition range (n : nat) : list nat := seq 0 n.

(** The three messages of [scaleMatrix] (lines 171, 186 and 212). *)
Definition InvalidScaleType : exn :=
  ValueError "scale must be integer types".
Definition NonDivisibleScale : exn :=
  GToolsError "Matrix can only be scaled down by a factor of it's dimensions".
Definition MixedDirectionScale : exn :=
  GToolsError "Dimensions must be scaled in the same direction".

(* ------------------------------------------------------------------ *)
(** ** Arrays *)

Record ndarray : Type := mkarray {
  shape : nat * nat;
  item : nat -> nat -> Qc
}.

Definition shape0 (a : ndarray) : nat := fst (shape a).
Definition shape1 (a : ndarray) : nat := snd (shape a).

Definition of_nat (n : nat) : Qc := Q2Qc (inject_Z (Z.of_nat n)).

(** [np.array(l)] for a rectangular nested list. *)
Definition array (l : list (list Qc)) : ndarray :=
  mkarray (length l, length (hd [] l))
          (fun i j => nth j (nth i l []) 0%Qc).

(** [a.tolist()] *)
Definition tolist (a : ndarray) : list (list Qc) :=
  map (fun i => map (fun j => item a i j) (seq 0 (shape1 a))) (seq 0 (shape0 a)).

(** [np.array_equal(a, b)]: same shape, same cells. *)
Definition array_equal (a b : ndarray) : Prop :=
  shape a = shape b /\
  forall i j, i < shape0 a -> j < shape1 a -> item a i j = item b i j.

Module np.

(** [np.zeros(sh)] *)
Definition zeros (sh : nat * nat) : ndarray :=
  mkarray sh (fun _ _ => 0%Qc).

(** Number of entries of [start::step] on an axis of [n] entries. *)
Definition slice_len (n start step : nat) : nat :=
  (n - start + (step - 1)) / step.

(** Does position [i] of an axis of [n] entries belong to [start::step]? *)
Definition in_slice (n start step i : nat) : bool :=
  (start <=? i) && (i <? n) && ((i - start) mod step =? 0).

Definition shape_eqb (s t : nat * nat) : bool :=
  (fst s =? fst t) && (snd s =? snd t).

(** [a[yo::ys, xo::xs]], a strided view of [a]. *)
Definition getitem (a : ndarray) (yo ys xo xs : nat) : result ndarray :=
  if (ys =? 0) || (xs =? 0)
  then Raise (ValueError "slice step cannot be zero")
  else Ok (mkarray (slice_len (shape0 a) yo ys, slice_len (shape1 a) xo xs)
                   (fun i j => item a (yo + i * ys) (xo + j * xs))).

(** [a[yo::ys, xo::xs] = v].  NumPy would also accept a [v] with an axis of
    length one and stretch it; here any other shape than that of the view
    is an error.  [scaleMatrix] only ever assigns a [v] of the view's own
    shape ([upscale_spec] below shows that the error is never raised). *)
Definition setitem (a : ndarray) (yo ys xo xs : nat) (v : ndarray)
  : result ndarray :=
  view <- getitem a yo ys xo xs ;;
  if shape_eqb (shape v) (shape view)
  then Ok (mkarray (shape a)
             (fun i j =>
                if in_slice (shape0 a) yo ys i && in_slice (shape1 a) xo xs j
                then item v ((i - yo) / ys) ((j - xo) / xs)
                else item a i j))
  else Raise (ValueError "could not broadcast input array").

(** [a += b] (same remark on shapes as for [setitem]). *)
Definition iadd (a b : ndarray) : result ndarray :=
  if shape_eqb (shape b) (shape a)
  then Ok (mkarray (shape a) (fun i j => (item a i j + item b i j)%Qc))
  else Raise (ValueError "operands could not be broadcast together").

(** [a / k] *)
Definition truediv (a : ndarray) (k : Qc) : ndarray :=
  mkarray (shape a) (fun i j => (item a i j / k)%Qc).

(** [np.concatenate((a, b), axis)] *)
Definition concatenate (a b : ndarray) (axis : nat) : result ndarray :=
  match axis with
  | 0 =>
      if shape1 a =? shape1 b
      then Ok (mkarray (shape0 a + shape0 b, shape1 a)
                 (fun i j => if i <? shape0 a then item a i j
                             else item b (i - shape0 a) j))
      else Raise (ValueError "all the input array dimensions except for the concatenation axis must match exactly")
  | 1 =>
      if shape0 a =? shape0 b
      then Ok (mkarray (shape0 a, shape1 a + shape1 b)
                 (fun i j => if j <? shape1 a then item a i j
                             else item b i (j - shape1 a)))
      else Raise (ValueError "all the input array dimensions except for the concatenation axis must match exactly")
  | _ => Raise (IndexError "axis is out of bounds for array of dimension 2")
  end.

(** The two index forms [scaleMatrix] uses on an axis besides strides. *)
Inductive index : Type :=
| upto_last   (* the slice  :-1 *)
| last.       (* the integer -1 *)

Definition selects (n : nat) (ix : index) (i : nat) : bool :=
  match ix with
  | upto_last => i <? n - 1
  | last => i =? n - 1
  end.

(** The integer index [-1] is out of bounds on an empty axis; the slice
    [:-1] is merely empty there. *)
Definition index_ok (n : nat) (ix : index) : bool :=
  match ix with
  | upto_last => true
  | last => 0 <? n
  end.

(** [a[iy, ix] *= k] *)
Definition imul (a : ndarray) (iy ix : index) (k : Qc) : result ndarray :=
  if index_ok (shape0 a) iy && index_ok (shape1 a) ix
  then Ok (mkarray (shape a)
             (fun i j =>
                if selects (shape0 a) iy i && selects (shape1 a) ix j
                then (item a i j * k)%Qc
                else item a i j))
  else Raise (IndexError "index -1 is out of bounds for axis with size 0").

End np.

(* ------------------------------------------------------------------ *)
(** ** The scale argument *)

(** A component of [scale]: an [int], or anything else. *)
Inductive pyobj : Type :=
| PyInt (z : Z)
| PyNotInt.

(** [scale] either unpacks into two components or it does not, in which case
    it is used for both axes (lines 164-167). *)
Inductive scale_arg : Type :=
| Pair (yScale xScale : pyobj)
| Single (s : pyobj).

Definition unpack (scale : scale_arg) : pyobj * pyobj :=
  match scale with
  | Pair y x => (y, x)
  | Single s => (s, s)
  end.

(* ------------------------------------------------------------------ *)
(** ** scaleMatrix on array values *)

(** Lines 175-178: the scale-up branch. *)
Definition upscale (mat : ndarray) (yScale xScale : nat) : result ndarray :=
  let out := np.zeros (shape0 mat * yScale, shape1 mat * xScale) in
  for_ (range yScale) (fun yo out =>
    for_ (range xScale) (fun xo out =>
      np.setitem out yo yScale xo xScale mat) out) out.

(** Lines 190-194: the amount of padding along one axis of [n] entries. *)
Definition pad_amount (scale n : nat) : nat :=
  let pad := scale - n mod scale in
  if pad =? scale then 0 else pad.

(** Lines 197-198: zero rows below, then zero columns to the right. *)
Definition zero_pad (mat : ndarray) (yPad xPad : nat) : result ndarray :=
  mat <- (if 0 <? yPad
          then np.concatenate mat (np.zeros (yPad, shape1 mat)) 0
          else Ok mat) ;;
  mat <- (if 0 <? xPad
          then np.concatenate mat (np.zeros (shape0 mat, xPad)) 1
          else Ok mat) ;;
  Ok mat.

(** Lines 200-204: the sum of the strided views, divided by the block size. *)
Definition block_average (mat : ndarray) (yScale xScale : nat) : result ndarray :=
  let out := np.zeros (shape0 mat / yScale, shape1 mat / xScale) in
  out <- for_ (range yScale) (fun yo out =>
           for_ (range xScale) (fun xo out =>
             v <- np.getitem mat yo yScale xo xScale ;;
             np.iadd out v) out) out ;;
  Ok (np.truediv out (of_nat (xScale * yScale))).

(** Lines 207-209: the correction of the edges after padding. *)
Definition correct_edges (out : ndarray) (yScale xScale yPad xPad : nat)
  : result ndarray :=
  out <- (if 0 <? yPad
          then np.imul out np.upto_last np.last
                 (of_nat yScale / of_nat (yScale - yPad))%Qc
          else Ok out) ;;
  out <- (if 0 <? xPad
          then np.imul out np.last np.upto_last
                 (of_nat xScale / of_nat (xScale - xPad))%Qc
          else Ok out) ;;
  out <- (if 0 <? yPad
          then np.imul out np.last np.last
                 (of_nat (yScale * xScale) / of_nat (yScale - yPad)
                  / of_nat (xScale - xPad))%Qc
          else Ok out) ;;
  Ok out.

(** Lines 180-209: the scale-down branch, [yScale] and [xScale] already
    negated, hence positive. *)
Definition downscale (mat : ndarray) (yScale xScale : nat) (strict : bool)
  : result ndarray :=
  '(mat, yPad, xPad) <-
    (if strict then
       if negb ((shape0 mat mod yScale =? 0) && (shape1 mat mod xScale =? 0))
       then Raise NonDivisibleScale
       else Ok (mat, 0, 0)
     else
       let yPad := pad_amount yScale (shape0 mat) in
       let xPad := pad_amount xScale (shape1 mat) in
       mat <- zero_pad mat yPad xPad ;;
       Ok (mat, yPad, xPad)) ;;
  out <- block_average mat yScale xScale ;;
  correct_edges out yScale xScale yPad xPad.

(** Lines 163-214. *)
Definition scaleMatrix (mat : ndarray) (scale : scale_arg) (strict : bool)
  : result ndarray :=
  match unpack scale with
  | (PyInt yScale, PyInt xScale) =>
      if (xScale =? 0)%Z && (yScale =? 0)%Z then Ok mat
      else if (xScale >? 0)%Z && (yScale >? 0)%Z then
        upscale mat (Z.to_nat yScale) (Z.to_nat xScale)
      else if (xScale <? 0)%Z && (yScale <? 0)%Z then
        let xScale := (-1 * xScale)%Z in
        let yScale := (-1 * yScale)%Z in
        downscale mat (Z.to_nat yScale) (Z.to_nat xScale) strict
      else Raise MixedDirectionScale
  | _ => Raise InvalidScaleType
  end.

(* ------------------------------------------------------------------ *)
(** ** scaleMatrix on an object store

    Python passes arrays by reference, and [out[...] = mat], [out += ...]
    and [out[...] *= k] update an array in place.  Here the store is a list
    of arrays, a reference is a position in it, allocation appends, and an
    exception leaves the store as it was when it was raised.  Nothing is
    ever collected.  A strided view [mat[yo::ys, xo::xs]] is read at once
    and never kept, so it is not given a reference of its own. *)

Module Obj.

Definition ref : Type := nat.
Definition heap : Type := list ndarray.

Definition M (A : Type) : Type := heap -> result A * heap.

Definition ret {A} (a : A) : M A := fun h => (Ok a, h).
Definition raise {A} (e : exn) : M A := fun h => (Raise e, h).
Definition lift {A} (r : result A) : M A := fun h => (r, h).

Definition bind {A B} (m : M A) (k : A -> M B) : M B :=
  fun h =>
    match m h with
    | (Ok a, h') => k a h'
    | (Raise e, h') => (Raise e, h')
    end.

Declare Scope obj_scope.
Delimit Scope obj_scope with obj.
Notation "x <- m ;; k" := (bind m (fun x => k))
  (at level 61, m at next level, right associativity) : obj_scope.
Notation "' pat <- m ;; k" := (bind m (fun x => match x with pat => k end))
  (at level 61, pat pattern, m at next level, right associativity) : obj_scope.
Notation "m ;; k" := (bind m (fun _ => k))
  (at level 61, right associativity) : obj_scope.
Local Open Scope obj_scope.

(** The array a reference points to (references held by a Python program
    are always live). *)
Definition deref (h : heap) (r : ref) : ndarray := nth r h (np.zeros (0, 0)).

Fixpoint update (r : ref) (a : ndarray) (h : heap) : heap :=
  match h, r with
  | [], _ => []
  | _ :: h', 0 => a :: h'
  | b :: h', S r' => b :: update r' a h'
  end.

Definition alloc (a : ndarray) : M ref := fun h => (Ok (length h), h ++ [a]).
Definition load (r : ref) : M ndarray := fun h => (Ok (deref h r), h).
Definition store (r : ref) (a : ndarray) : M unit :=
  fun h => (Ok tt, update r a h).

Fixpoint for_ {A} (xs : list A) (body : A -> M unit) : M unit :=
  match xs with
  | [] => ret tt
  | x :: xs' => body x ;; for_ xs' body
  end.

(** The NumPy operations, on references. *)

Definition shape (a : ref) : M (nat * nat) :=
  x <- load a ;; ret (shape x).

Definition zeros (sh : nat * nat) : M ref := alloc (np.zeros sh).

(** [out[yo::ys, xo::xs] = v] *)
Definition setitem (out : ref) (yo ys xo xs : nat) (v : ref) : M unit :=
  a <- load out ;;
  b <- load v ;;
  a' <- lift (np.setitem a yo ys xo xs b) ;;
  store out a'.

(** [out += mat[yo::ys, xo::xs]] *)
Definition iadd_view (out mat : ref) (yo ys xo xs : nat) : M unit :=
  m <- load mat ;;
  v <- lift (np.getitem m yo ys xo xs) ;;
  a <- load out ;;
  a' <- lift (np.iadd a v) ;;
  store out a'.

(** [a / k], a new array *)
Definition truediv (a : ref) (k : Qc) : M ref :=
  x <- load a ;; alloc (np.truediv x k).

(** [np.concatenate((a, b), axis)], a new array *)
Definition concatenate (a b : ref) (axis : nat) : M ref :=
  x <- load a ;;
  y <- load b ;;
  c <- lift (np.concatenate x y axis) ;;
  alloc c.

(** [a[iy, ix] *= k] *)
Definition imul (a : ref) (iy ix : np.index) (k : Qc) : M unit :=
  x <- load a ;;
  x' <- lift (np.imul x iy ix k) ;;
  store a x'.

(** Lines 175-178. *)
Definition upscale (mat : ref) (yScale xScale : nat) : M ref :=
  sh <- shape mat ;;
  out <- zeros (fst sh * yScale, snd sh * xScale) ;;
  for_ (range yScale) (fun yo =>
    for_ (range xScale) (fun xo =>
      setitem out yo yScale xo xScale mat)) ;;
  ret out.

(** Lines 197-198; [mat] is rebound to the new arrays, the argument is
    left alone. *)
Definition zero_pad (mat : ref) (yPad xPad : nat) : M ref :=
  mat <- (if 0 <? yPad
          then sh <- shape mat ;;
               z <- zeros (yPad, snd sh) ;;
               concatenate mat z 0
          else ret mat) ;;
  mat <- (if 0 <? xPad
          then sh <- shape mat ;;
               z <- zeros (fst sh, xPad) ;;
               concatenate mat z 1
          else ret mat) ;;
  ret mat.

(** Lines 200-204. *)
Definition block_average (mat : ref) (yScale xScale : nat) : M ref :=
  sh <- shape mat ;;
  out <- zeros (fst sh / yScale, snd sh / xScale) ;;
  for_ (range yScale) (fun yo =>
    for_ (range xScale) (fun xo =>
      iadd_view out mat yo yScale xo xScale)) ;;
  truediv out (of_nat (xScale * yScale)).

(** Lines 207-209. *)
Definition correct_edges (out : ref) (yScale xScale yPad xPad : nat) : M unit :=
  (if 0 <? yPad
   then imul out np.upto_last np.last
          (of_nat yScale / of_nat (yScale - yPad))%Qc
   else ret tt) ;;
  (if 0 <? xPad
   then imul out np.last np.upto_last
          (of_nat xScale / of_nat (xScale - xPad))%Qc
   else ret tt) ;;
  (if 0 <? yPad
   then imul out np.last np.last
          (of_nat (yScale * xScale) / of_nat (yScale - yPad)
           / of_nat (xScale - xPad))%Qc
   else ret tt).

(** Lines 180-209. *)
Definition downscale (mat : ref) (yScale xScale : nat) (strict : bool) : M ref :=
  '(mat, yPad, xPad) <-
    (if strict then
       sh <- shape mat ;;
       if negb ((fst sh mod yScale =? 0) && (snd sh mod xScale =? 0))
       then raise NonDivisibleScale
       else ret (mat, 0, 0)
     else
       sh <- shape mat ;;
       let yPad := pad_amount yScale (fst sh) in
       let xPad := pad_amount xScale (snd sh) in
       mat <- zero_pad mat yPad xPad ;;
       ret (mat, yPad, xPad)) ;;
  out <- block_average mat yScale xScale ;;
  correct_edges out yScale xScale yPad xPad ;;
  ret out.

(** Lines 163-214. *)
Definition scaleMatrix (mat : ref) (scale : scale_arg) (strict : bool) : M ref :=
  match unpack scale with
  | (PyInt yScale, PyInt xScale) =>
      if (xScale =? 0)%Z && (yScale =? 0)%Z then ret mat
      else if (xScale >? 0)%Z && (yScale >? 0)%Z then
        upscale mat (Z.to_nat yScale) (Z.to_nat xScale)
      else if (xScale <? 0)%Z && (yScale <? 0)%Z then
        let xScale := (-1 * xScale)%Z in
        let yScale := (-1 * yScale)%Z in
        downscale mat (Z.to_nat yScale) (Z.to_nat xScale) strict
      else raise MixedDirectionScale
  | _ => raise InvalidScaleType
  end.

End Obj.

(* ------------------------------------------------------------------ *)
(** ** Vocabulary of the specification *)

Definition total (l : list Qc) : Qc := fold_right Qcplus 0%Qc l.

(** Arithmetic mean of a list of numbers. *)
Definition mean (l : list Qc) : Qc := (total l / of_nat (length l))%Qc.

(** The cells [mat[i*ys+yo][j*xs+xo]], [yo] in [[0,ys)], [xo] in [[0,xs)]. *)
Definition block (mat : ndarray) (ys xs i j : nat) : list Qc :=
  flat_map (fun yo => map (fun xo => item mat (i * ys + yo) (j * xs + xo))
                          (range xs))
           (range ys).

(** Those cells of the block that lie inside [mat]: the real samples, as
    opposed to the zeros of the padding. *)
Definition real_block (mat : ndarray) (ys xs i j : nat) : list Qc :=
  flat_map (fun yo =>
    flat_map (fun xo =>
      if (i * ys + yo <? shape0 mat) && (j * xs + xo <? shape1 mat)
      then [item mat (i * ys + yo) (j * xs + xo)]
      else [])
      (range xs))
    (range ys).

(** The scale pair [(y, x)] of machine integers. *)
Definition ints (y x : Z) : scale_arg := Pair (PyInt y) (PyInt x).

(** The grid of the docstring's examples. *)
Definition example_grid : ndarray :=
  array (map (map (fun n => of_nat n))
             [[1; 1; 1; 1]; [2; 2; 3; 3]; [4; 4; 5; 5]; [6; 7; 8; 9]]).

(** Two small grids on which the lenient path pads one axis only. *)
Definition grid_3x4 : ndarray :=
  array (map (map (fun n => of_nat n))
             [[1; 2; 3; 4]; [5; 6; 7; 8]; [9; 10; 11; 12]]).

Definition grid_2x3 : ndarray :=
  array (map (map (fun n => of_nat n)) [[1; 2; 3]; [4; 5; 6]]).

Definition grid_2x2 : ndarray :=
  array (map (map (fun n => of_nat n)) [[1; 2]; [3; 4]]).

(** What a test sees of a call: the shape and the cells (as reduced
    fractions) of the array it returns, or nothing if it raises. *)
Definition observe (r : result ndarray) : option (nat * nat * list (list Q)) :=
  match r with
  | Ok a => Some (shape a, map (map this) (tolist a))
  | Raise _ => None
  end.

(** [n/d] as a number. *)
Definition frac (n d : nat) : Qc := (of_nat n / of_nat d)%Qc.

(* ------------------------------------------------------------------ *)
(** ** Loop invariants

    The rows and columns of a block are visited in the order of the two
    nested loops: [a] counts the finished rounds of the outer loop and [b]
    those of the inner one. *)

(** Scale-up: the cells whose offsets have been visited hold their value. *)
Definition up_inv (mat : ndarray) (ys xs a b : nat) (out : ndarray) : Prop :=
  shape out = (shape0 mat * ys, shape1 mat * xs) /\
  forall r c, r < shape0 mat * ys -> c < shape1 mat * xs ->
    r mod ys < a \/ (r mod ys = a /\ c mod xs < b) ->
    item out r c = item mat (r / ys) (c / xs).


(** Scale-down: the accumulator holds the sum of the visited offsets. *)
Definition block_row (mat : ndarray) (ys xs i j yo n : nat) : list Qc :=
  map (fun xo => item mat (i * ys + yo) (j * xs + xo)) (range n).
Definition block_rows (mat : ndarray) (ys xs i j a : nat) : list Qc :=
  flat_map (fun yo => block_row mat ys xs i j yo xs) (range a).
Definition acc_inv (mat : ndarray) (ys xs a b : nat) (out : ndarray) : Prop :=
  shape out = (shape0 mat / ys, shape1 mat / xs) /\
  forall i j,
    item out i j =
    (total (block_rows mat ys xs i j a) + total (block_row mat ys xs i j a b))%Qc.

(* ------------------------------------------------------------------ *)
(** ** Relating a run on the store to the function on values *)

Module ObjSpec.

(** [c] updates the last array of the store in place, as [r] says, and
    touches nothing else. *)
Definition inplace (H : Obj.heap) (c : Obj.M unit) (r : ndarray -> result ndarray)
  : Prop :=
  forall a, exists a',
    c (H ++ [a]) =
      (match r a with Ok _ => Ok tt | Raise e => Raise e end, H ++ [a']) /\
    (forall o, r a = Ok o -> a' = o).

(** The run [x], started in the store [H], only appended to [H]; it
    raised what [r] raises, or returned a live reference to the array [r]
    returns, a reference that [H] did not have when [fresh] is set. *)
Definition returns (fresh : bool) (H : Obj.heap)
           (x : result Obj.ref * Obj.heap) (r : result ndarray) : Prop :=
  exists t,
    snd x = H ++ t /\
    match r with
    | Ok o => exists out,
        fst x = Ok out /\ out < length (H ++ t) /\
        Obj.deref (H ++ t) out = o /\
        (fresh = true -> length H <= out)
    | Raise e => fst x = Raise e
    end.
(** Runs the straight-line part of a computation on the store. *)
Ltac obj_run :=
  cbv beta iota zeta delta
    [Obj.bind Obj.shape Obj.load Obj.ret Obj.raise Obj.lift Obj.store
     Obj.zeros Obj.alloc Obj.concatenate Obj.truediv Obj.imul
     Obj.setitem Obj.iadd_view].
End ObjSpec.

(* ------------------------------------------------------------------ *)
(** ** Further vocabulary *)

(** [ceil(n / s)] *)
Definition ceil_div (n s : nat) : nat := (n + (s - 1)) / s.

(** What lines 207-209 multiply the cell [(i, j)] of an [n]-by-[m] result
    by, read off the three guarded statements: the first touches the last
    column above the corner, the second the last row left of the corner,
    the third the corner. *)
Definition edge_factor (ys xs yPad xPad n m i j : nat) : Qc :=
  ((if (0 <? yPad) && ((i <? n - 1) && (j =? m - 1))
    then of_nat ys / of_nat (ys - yPad) else 1)
   * (if (0 <? xPad) && ((i =? n - 1) && (j <? m - 1))
      then of_nat xs / of_nat (xs - xPad) else 1)
   * (if (0 <? yPad) && ((i =? n - 1) && (j =? m - 1))
      then of_nat (ys * xs) / of_nat (ys - yPad) / of_nat (xs - xPad) else 1))%Qc.

(** A grid of three rows and no column. *)
Definition grid_3x0 : ndarray := array [[]; []; []].

(* ------------------------------------------------------------------ *)
(** ** isclose (src/GTools/util.py, lines 106-110)

    On exact rationals.  Python's [max(x, y)] returns [y] when [x < y] and
    [x] otherwise, which is [Qmax]. *)

Definition isclose (a b rel_tol abs_tol : Q) : bool :=
  Qle_bool (Qabs (a - b)) (Qmax (rel_tol * Qmax (Qabs a) (Qabs b)) abs_tol).

(* ------------------------------------------------------------------ *)
(** ** scaleMatrix on arrays of doubles

    The scale-down branch accumulates in an array created with
    [dtype="float"] (line 200): its sums, its division (line 204) and its
    corrections (lines 207-209) are operations of IEEE binary64, each
    rounded to nearest, with overflow to infinity.  [F64] is the function
    once more, line by line as above, on arrays whose cells are doubles
    (Rocq's primitive [float]).  An array of integers enters this
    arithmetic through [out += view], which converts its cells to doubles;
    here the cells are doubles from the start.  Strides, shapes and index
    forms are those of [np]. *)

Module F64.

Record ndarray : Type := mkarray {
  shape : nat * nat;
  item : nat -> nat -> float
}.

Definition shape0 (a : ndarray) : nat := fst (shape a).
Definition shape1 (a : ndarray) : nat := snd (shape a).

(** [float(n)]: the double nearest to the integer [n] ([n] itself below
    [2^53]). *)
Definition of_nat (n : nat) : float :=
  SF2Prim (binary_normalize prec emax (Z.of_nat n) 0 false).

(** [np.array(l)] for a rectangular nested list of doubles. *)
Definition array (l : list (list float)) : ndarray :=
  mkarray (length l, length (hd [] l))
          (fun i j => nth j (nth i l []) 0%float).

(** [a.tolist()] *)
Definition tolist (a : ndarray) : list (list float) :=
  map (fun i => map (fun j => item a i j) (seq 0 (shape1 a))) (seq 0 (shape0 a)).

(** [np.array_equal(a, b)]: same shape, and [==] on every pair of cells,
    the comparison of IEEE 754 (under which a nan differs from itself and
    the two zeros are equal). *)
Definition array_equal (a b : ndarray) : Prop :=
  shape a = shape b /\
  forall i j, i < shape0 a -> j < shape1 a ->
    PrimFloat.eqb (item a i j) (item b i j) = true.

Module np.

(** [np.zeros(sh)] *)
Definition zeros (sh : nat * nat) : ndarray :=
  mkarray sh (fun _ _ => 0%float).

(** [a[yo::ys, xo::xs]] *)
Definition getitem (a : ndarray) (yo ys xo xs : nat) : result ndarray :=
  if (ys =? 0) || (xs =? 0)
  then Raise (ValueError "slice step cannot be zero")
  else Ok (mkarray (np.slice_len (shape0 a) yo ys, np.slice_len (shape1 a) xo xs)
                   (fun i j => item a (yo + i * ys) (xo + j * xs))).

(** [a[yo::ys, xo::xs] = v], for a [v] of the shape of the view. *)
Definition setitem (a : ndarray) (yo ys xo xs : nat) (v : ndarray)
  : result ndarray :=
  view <- getitem a yo ys xo xs ;;
  if np.shape_eqb (shape v) (shape view)
  then Ok (mkarray (shape a)
             (fun i j =>
                if np.in_slice (shape0 a) yo ys i && np.in_slice (shape1 a) xo xs j
                then item v ((i - yo) / ys) ((j - xo) / xs)
                else item a i j))
  else Raise (ValueError "could not broadcast input array").

(** [a += b], cell by cell in binary64, for a [b] of the shape of [a]. *)
Definition iadd (a b : ndarray) : result ndarray :=
  if np.shape_eqb (shape b) (shape a)
  then Ok (mkarray (shape a) (fun i j => (item a i j + item b i j)%float))
  else Raise (ValueError "operands could not be broadcast together").

(** [a / k], cell by cell in binary64. *)
Definition truediv (a : ndarray) (k : float) : ndarray :=
  mkarray (shape a) (fun i j => (item a i j / k)%float).

(** [np.concatenate((a, b), axis)] *)
Definition concatenate (a b : ndarray) (axis : nat) : result ndarray :=
  match axis with
  | 0 =>
      if shape1 a =? shape1 b
      then Ok (mkarray (shape0 a + shape0 b, shape1 a)
                 (fun i j => if i <? shape0 a then item a i j
                             else item b (i - shape0 a) j))
      else Raise (ValueError "all the input array dimensions except for the concatenation axis must match exactly")
  | 1 =>
      if shape0 a =? shape0 b
      then Ok (mkarray (shape0 a, shape1 a + shape1 b)
                 (fun i j => if j <? shape1 a then item a i j
                             else item b i (j - shape1 a)))
      else Raise (ValueError "all the input array dimensions except for the concatenation axis must match exactly")
  | _ => Raise (IndexError "axis is out of bounds for array of dimension 2")
  end.

(** [a[iy, ix] *= k], cell by cell in binary64. *)
Definition imul (a : ndarray) (iy ix : np.index) (k : float) : result ndarray :=
  if np.index_ok (shape0 a) iy && np.index_ok (shape1 a) ix
  then Ok (mkarray (shape a)
             (fun i j =>
                if np.selects (shape0 a) iy i && np.selects (shape1 a) ix j
                then (item a i j * k)%float
                else item a i j))
  else Raise (IndexError "index -1 is out of bounds for axis with size 0").

End np.

(** Lines 175-178. *)
Definition upscale (mat : ndarray) (yScale xScale : nat) : result ndarray :=
  let out := np.zeros (shape0 mat * yScale, shape1 mat * xScale) in
  for_ (range yScale) (fun yo out =>
    for_ (range xScale) (fun xo out =>
      np.setitem out yo yScale xo xScale mat) out) out.

(** Lines 197-198. *)
Definition zero_pad (mat : ndarray) (yPad xPad : nat) : result ndarray :=
  mat <- (if 0 <? yPad
          then np.concatenate mat (np.zeros (yPad, shape1 mat)) 0
          else Ok mat) ;;
  mat <- (if 0 <? xPad
          then np.concatenate mat (np.zeros (shape0 mat, xPad)) 1
          else Ok mat) ;;
  Ok mat.

(** Lines 200-204: each strided view is added to the accumulator in turn,
    and the accumulator is divided by [float(xScale*yScale)]. *)
Definition block_average (mat : ndarray) (yScale xScale : nat) : result ndarray :=
  let out := np.zeros (shape0 mat / yScale, shape1 mat / xScale) in
  out <- for_ (range yScale) (fun yo out =>
           for_ (range xScale) (fun xo out =>
             v <- np.getitem mat yo yScale xo xScale ;;
             np.iadd out v) out) out ;;
  Ok (np.truediv out (of_nat (xScale * yScale))).

(** Lines 207-209.  The factors are true quotients of Python integers,
    which are doubles: for integers below [2^53], the quotient in binary64
    of the two integers as doubles. *)
Definition correct_edges (out : ndarray) (yScale xScale yPad xPad : nat)
  : result ndarray :=
  out <- (if 0 <? yPad
          then np.imul out np.upto_last np.last
                 (of_nat yScale / of_nat (yScale - yPad))%float
          else Ok out) ;;
  out <- (if 0 <? xPad
          then np.imul out np.last np.upto_last
                 (of_nat xScale / of_nat (xScale - xPad))%float
          else Ok out) ;;
  out <- (if 0 <? yPad
          then np.imul out np.last np.last
                 (of_nat (yScale * xScale) / of_nat (yScale - yPad)
                  / of_nat (xScale - xPad))%float
          else Ok out) ;;
  Ok out.

(** Lines 180-209. *)
Definition downscale (mat : ndarray) (yScale xScale : nat) (strict : bool)
  : result ndarray :=
  '(mat, yPad, xPad) <-
    (if strict then
       if negb ((shape0 mat mod yScale =? 0) && (shape1 mat mod xScale =? 0))
       then Raise NonDivisibleScale
       else Ok (mat, 0, 0)
     else
       let yPad := pad_amount yScale (shape0 mat) in
       let xPad := pad_amount xScale (shape1 mat) in
       mat <- zero_pad mat yPad xPad ;;
       Ok (mat, yPad, xPad)) ;;
  out <- block_average mat yScale xScale ;;
  correct_edges out yScale xScale yPad xPad.

(** Lines 163-214. *)
Definition scaleMatrix (mat : ndarray) (scale : scale_arg) (strict : bool)
  : result ndarray :=
  match unpack scale with
  | (PyInt yScale, PyInt xScale) =>
      if (xScale =? 0)%Z && (yScale =? 0)%Z then Ok mat
      else if (xScale >? 0)%Z && (yScale >? 0)%Z then
        upscale mat (Z.to_nat yScale) (Z.to_nat xScale)
      else if (xScale <? 0)%Z && (yScale <? 0)%Z then
        let xScale := (-1 * xScale)%Z in
        let yScale := (-1 * yScale)%Z in
        downscale mat (Z.to_nat yScale) (Z.to_nat xScale) strict
      else Raise MixedDirectionScale
  | _ => Raise InvalidScaleType
  end.

(** *** Vocabulary *)



(** The sum that a loop [s = 0.0; for x in l: s += x] leaves in [s]. *)
Definition sum (l : list float) : float := fold_left PrimFloat.add l 0%float.

(** The mean as binary64 computes it: the cells added one after the other
    to [0.0], every addition rounded, and the sum divided by their
    number. *)
Definition mean (l : list float) : float := (sum l / of_nat (length l))%float.

(** The cells [mat[i*ys+yo][j*xs+xo]], in the order of the two loops of
    lines 201-202: [yo] in [[0,ys)] outside, [xo] in [[0,xs)] inside. *)
Definition block (mat : ndarray) (ys xs i j : nat) : list float :=
  flat_map (fun yo => map (fun xo => item mat (i * ys + yo) (j * xs + xo))
                          (range xs))
           (range ys).

(** Every [ys]-by-[xs] block of [mat] holds one double. *)
Definition uniform_blocks (mat : ndarray) (ys xs : nat) : Prop :=
  forall r c, r < shape0 mat -> c < shape1 mat ->
    item mat r c = item mat (r / ys * ys) (c / xs * xs).

(** Every cell of [mat] is [==] to the mean of [n] copies of itself. *)
Definition kept_by_mean (mat : ndarray) (n : nat) : Prop :=
  forall i j, i < shape0 mat -> j < shape1 mat ->
    PrimFloat.eqb (mean (repeat (item mat i j) n)) (item mat i j) = true.

(** [mat] with [yPad] rows of zeros below and [xPad] columns of zeros to
    the right. *)
Definition padded (mat : ndarray) (yPad xPad : nat) : ndarray :=
  mkarray (shape0 mat + yPad, shape1 mat + xPad)
          (fun i j => if (i <? shape0 mat) && (j <? shape1 mat)
                      then item mat i j else 0%float).

(** What lines 207-209 make of the cell [(i, j)] of an [n]-by-[m] result
    that holds [v]: one multiplication in binary64 on the last column above
    the corner and on the corner when rows were padded, and on the last row
    left of the corner when columns were padded; nothing elsewhere. *)
Definition edge_corrected (ys xs yPad xPad n m i j : nat) (v : float) : float :=
  if (0 <? yPad) && ((i <? n - 1) && (j =? m - 1))
  then (v * (of_nat ys / of_nat (ys - yPad)))%float
  else if (0 <? xPad) && ((i =? n - 1) && (j <? m - 1))
  then (v * (of_nat xs / of_nat (xs - xPad)))%float
  else if (0 <? yPad) && ((i =? n - 1) && (j =? m - 1))
  then (v * (of_nat (ys * xs) / of_nat (ys - yPad) / of_nat (xs - xPad)))%float
  else v.

(** *** Loop invariants, as for the arrays of fractions *)

Definition up_inv (mat : ndarray) (ys xs a b : nat) (out : ndarray) : Prop :=
  shape out = (shape0 mat * ys, shape1 mat * xs) /\
  forall r c, r < shape0 mat * ys -> c < shape1 mat * xs ->
    r mod ys < a \/ (r mod ys = a /\ c mod xs < b) ->
    item out r c = item mat (r / ys) (c / xs).

(** The accumulator holds the sum, taken in the order of the loops, of the
    offsets visited so far. *)
Definition block_row (mat : ndarray) (ys xs i j yo n : nat) : list float :=
  map (fun xo => item mat (i * ys + yo) (j * xs + xo)) (range n).
Definition block_rows (mat : ndarray) (ys xs i j a : nat) : list float :=
  flat_map (fun yo => block_row mat ys xs i j yo xs) (range a).
Definition acc_inv (mat : ndarray) (ys xs a b : nat) (out : ndarray) : Prop :=
  shape out = (shape0 mat / ys, shape1 mat / xs) /\
  forall i j,
    item out i j =
    sum (block_rows mat ys xs i j a ++ block_row mat ys xs i j a b).

(** The double nearest to [1/10], Python's [0.1]. *)
Definition tenth : float := 0x1.999999999999ap-4%float.

End F64.

Module F64Ex.

(** Three rows of one cell, each [0.1]. *)
Definition three_tenths : F64.ndarray :=
  F64.array [[F64.tenth]; [F64.tenth]; [F64.tenth]].

(** The grid of the docstring's examples, in doubles. *)
Definition example_grid : F64.ndarray :=
  F64.array [[1; 1; 1; 1]; [2; 2; 3; 3]; [4; 4; 5; 5]; [6; 7; 8; 9]]%float.

(** A grid made of two uniform 2x2 blocks. *)
Definition grid_blocks : F64.ndarray :=
  F64.array [[1; 1; 2; 2]; [1; 1; 2; 2]]%float.

End F64Ex.

(* ------------------------------------------------------------------ *)
(** ** Arithmetic of strides *)

Lemma slice_len_full k start step :
  start < step -> np.slice_len (k * step) start step = k.
Proof.
  intros H. unfold np.slice_len.
  symmetry.
  apply (Nat.div_unique _ _ _ (if k =? 0 then step - 1 else step - 1 - start)).
  - destruct (k =? 0); lia.
  - destruct (Nat.eqb_spec k 0); subst; simpl; nia.
Qed.

Lemma slice_len_divisible n start step :
  start < step -> n mod step = 0 -> np.slice_len n start step = n / step.
Proof.
  intros H Hm.
  pose proof (Nat.div_mod_eq n step) as E. rewrite Hm in E.
  replace n with (n / step * step) at 1 by lia.
  now apply slice_len_full.
Qed.

Lemma in_slice_iff n start step i :
  start < step ->
  np.in_slice n start step i = true <-> i < n /\ i mod step = start.
Proof.
  intros H. unfold np.in_slice.
  rewrite !andb_true_iff, Nat.leb_le, Nat.ltb_lt, Nat.eqb_eq.
  split.
  - intros [[H1 H2] H3]. split; [exact H2|].
    assert (E : i = start + ((i - start) / step) * step).
    { pose proof (Nat.div_mod_eq (i - start) step). lia. }
    rewrite E at 1. rewrite Nat.Div0.mod_add. apply Nat.mod_small; lia.
  - intros [H1 H2].
    pose proof (Nat.div_mod_eq i step) as E. rewrite H2 in E.
    repeat split; try lia.
    replace (i - start) with ((i / step) * step) by lia.
    apply Nat.Div0.mod_mul.
Qed.

Lemma sub_div_of_mod i step start :
  0 < step -> i mod step = start -> (i - start) / step = i / step.
Proof.
  intros Hs H. pose proof (Nat.div_mod_eq i step) as E. rewrite H in E.
  replace (i - start) with ((i / step) * step) by lia.
  apply Nat.div_mul. lia.
Qed.

(* ------------------------------------------------------------------ *)
(** ** Loops *)

Lemma for_snoc {A S} (xs : list A) (x : A) (body : A -> S -> result S) (s : S) :
  for_ (xs ++ [x]) body s = (s' <- for_ xs body s ;; body x s').
Proof.
  revert s. induction xs as [|y ys IH]; intros s; simpl.
  - destruct (body x s); reflexivity.
  - destruct (body y s) as [s'|e]; simpl; [apply IH | reflexivity].
Qed.

(** A counted loop whose every round succeeds and carries an invariant
    indexed by the number of rounds done. *)
Lemma for_range_inv {St} (P : nat -> St -> Prop) (n : nat)
      (body : nat -> St -> result St) (s : St) :
  P 0 s ->
  (forall k t, k < n -> P k t -> exists t', body k t = Ok t' /\ P (S k) t') ->
  exists s', for_ (range n) body s = Ok s' /\ P n s'.
Proof.
  intros H0 Hstep. unfold range.
  induction n as [|n IH].
  - exists s. split; [reflexivity | exact H0].
  - destruct IH as (s1 & E1 & P1).
    { intros k t Hk. apply Hstep. lia. }
    destruct (Hstep n s1) as (s2 & E2 & P2); [lia | exact P1 |].
    exists s2. split; [|exact P2].
    rewrite seq_S, for_snoc, E1. simpl. exact E2.
Qed.

(* ------------------------------------------------------------------ *)
(** ** The scale-up branch *)

Lemma shape_eqb_refl s : np.shape_eqb s s = true.
Proof. unfold np.shape_eqb. now rewrite !Nat.eqb_refl. Qed.

Lemma shape_eta a : shape a = (shape0 a, shape1 a).
Proof. unfold shape0, shape1. now destruct (shape a). Qed.

Section Upscale.
Variables (mat : ndarray) (ys xs : nat).
Hypothesis Hys : 0 < ys.
Hypothesis Hxs : 0 < xs.

Lemma setitem_upscale out yo xo :
  yo < ys -> xo < xs ->
  shape out = (shape0 mat * ys, shape1 mat * xs) ->
  exists out',
    np.setitem out yo ys xo xs mat = Ok out' /\
    shape out' = shape out /\
    forall r c,
      item out' r c =
      if np.in_slice (shape0 mat * ys) yo ys r && np.in_slice (shape1 mat * xs) xo xs c
      then item mat ((r - yo) / ys) ((c - xo) / xs)
      else item out r c.
Proof.
  intros Hyo Hxo Hs.
  unfold np.setitem, np.getitem.
  destruct (Nat.eqb_spec ys 0); [lia|].
  destruct (Nat.eqb_spec xs 0); [lia|].
  cbn [orb bind shape].
  unfold shape0, shape1. rewrite Hs. cbn [fst snd].
  rewrite !slice_len_full by assumption.
  fold (shape0 mat) (shape1 mat). rewrite <- shape_eta, shape_eqb_refl.
  eexists. split; [reflexivity|]. split; reflexivity.
Qed.

Lemma upscale_inner out yo :
  yo < ys -> up_inv mat ys xs yo 0 out ->
  exists out',
    for_ (range xs) (fun xo out => np.setitem out yo ys xo xs mat) out = Ok out' /\
    up_inv mat ys xs (S yo) 0 out'.
Proof.
  intros Hyo Hinv.
  destruct (for_range_inv (fun k o => up_inv mat ys xs yo k o) xs
              (fun xo out => np.setitem out yo ys xo xs mat) out) as (out' & E & Hout').
  - exact Hinv.
  - intros xo o Hxo [Hsh Hcells].
    destruct (setitem_upscale o yo xo Hyo Hxo Hsh) as (o' & E & Hsh' & Hitem).
    exists o'. split; [exact E|]. split; [congruence|].
    intros r c Hr Hc Hdone. rewrite Hitem.
    destruct (np.in_slice (shape0 mat * ys) yo ys r && np.in_slice (shape1 mat * xs) xo xs c) eqn:Hin.
    + apply andb_true_iff in Hin. destruct Hin as [Hin1 Hin2].
      apply in_slice_iff in Hin1; [|assumption].
      apply in_slice_iff in Hin2; [|assumption].
      rewrite (sub_div_of_mod r ys yo), (sub_div_of_mod c xs xo); tauto.
    + apply Hcells; try assumption.
      destruct Hdone as [Hd|[Hd1 Hd2]]; [now left|].
      right. split; [assumption|].
      assert (c mod xs <> xo).
      { intros Heq. rewrite andb_false_iff in Hin.
        destruct Hin as [Hin|Hin];
          [assert (np.in_slice (shape0 mat * ys) yo ys r = true) by (apply in_slice_iff; auto)
          |assert (np.in_slice (shape1 mat * xs) xo xs c = true) by (apply in_slice_iff; auto)];
          congruence. }
      lia.
  - exists out'. split; [exact E|].
    destruct Hout' as [Hsh Hcells]. split; [exact Hsh|].
    intros r c Hr Hc Hdone. apply Hcells; try assumption.
    destruct Hdone as [Hd|[Hd1 Hd2]]; [|lia].
    assert (c mod xs < xs) by (apply Nat.mod_upper_bound; lia).
    lia.
Qed.

Lemma upscale_spec :
  exists out,
    upscale mat ys xs = Ok out /\
    shape out = (shape0 mat * ys, shape1 mat * xs) /\
    forall r c, r < shape0 mat * ys -> c < shape1 mat * xs ->
      item out r c = item mat (r / ys) (c / xs).
Proof.
  unfold upscale.
  destruct (for_range_inv (fun k o => up_inv mat ys xs k 0 o) ys
              (fun yo out => for_ (range xs)
                 (fun xo out => np.setitem out yo ys xo xs mat) out)
              (np.zeros (shape0 mat * ys, shape1 mat * xs)))
    as (out & E & Hsh & Hcells).
  - split; [reflexivity|]. intros r c _ _ H. lia.
  - intros yo o Hyo Hinv. now apply upscale_inner.
  - exists out. split; [exact E|]. split; [exact Hsh|].
    intros r c Hr Hc. apply Hcells; try assumption.
    left. apply Nat.mod_upper_bound. lia.
Qed.
End Upscale.

(* ------------------------------------------------------------------ *)
(** ** The block average *)

Lemma total_app l1 l2 : total (l1 ++ l2) = (total l1 + total l2)%Qc.
Proof.
  induction l1 as [|x l1 IH]; simpl.
  - now rewrite Qcplus_0_l.
  - rewrite IH. ring.
Qed.

Lemma block_row_S mat ys xs i j yo n :
  total (block_row mat ys xs i j yo (S n)) =
  (total (block_row mat ys xs i j yo n) + item mat (i * ys + yo) (j * xs + n))%Qc.
Proof.
  unfold block_row, range. rewrite seq_S, map_app, total_app. simpl. ring.
Qed.

Lemma block_rows_S mat ys xs i j a :
  total (block_rows mat ys xs i j (S a)) =
  (total (block_rows mat ys xs i j a) + total (block_row mat ys xs i j a xs))%Qc.
Proof.
  unfold block_rows, range. rewrite seq_S, flat_map_app, total_app. simpl.
  rewrite app_nil_r. reflexivity.
Qed.

Lemma flat_map_map_length {A B C} (f : A -> B -> C) (l : list A) (l' : list B) :
  length (flat_map (fun a => map (f a) l') l) = length l * length l'.
Proof.
  induction l as [|a l IH]; simpl; [reflexivity|].
  now rewrite length_app, length_map, IH.
Qed.

Lemma block_length mat ys xs i j : length (block mat ys xs i j) = ys * xs.
Proof.
  unfold block, range. now rewrite flat_map_map_length, !length_seq.
Qed.

Section BlockAverage.
Variables (mat : ndarray) (ys xs : nat).
Hypothesis Hys : 0 < ys.
Hypothesis Hxs : 0 < xs.
Hypothesis Hrows : shape0 mat mod ys = 0.
Hypothesis Hcols : shape1 mat mod xs = 0.

Lemma iadd_view_spec out yo xo :
  yo < ys -> xo < xs ->
  shape out = (shape0 mat / ys, shape1 mat / xs) ->
  exists out',
    (v <- np.getitem mat yo ys xo xs ;; np.iadd out v) = Ok out' /\
    shape out' = shape out /\
    forall i j,
      item out' i j = (item out i j + item mat (i * ys + yo) (j * xs + xo))%Qc.
Proof.
  intros Hyo Hxo Hs.
  unfold np.getitem, np.iadd.
  destruct (Nat.eqb_spec ys 0); [lia|].
  destruct (Nat.eqb_spec xs 0); [lia|].
  cbn [orb bind shape item].
  rewrite !slice_len_divisible by assumption.
  rewrite Hs, shape_eqb_refl.
  eexists. split; [reflexivity|]. split; [reflexivity|].
  intros i j. cbn [item].
  now rewrite (Nat.add_comm yo), (Nat.add_comm xo).
Qed.

Lemma accumulate_inner out yo :
  yo < ys -> acc_inv mat ys xs yo 0 out ->
  exists out',
    for_ (range xs) (fun xo out =>
      v <- np.getitem mat yo ys xo xs ;; np.iadd out v) out = Ok out' /\
    acc_inv mat ys xs (S yo) 0 out'.
Proof.
  intros Hyo Hinv.
  destruct (for_range_inv (fun k o => acc_inv mat ys xs yo k o) xs
              (fun xo out => v <- np.getitem mat yo ys xo xs ;; np.iadd out v)
              out) as (out' & E & Hsh & Hcells).
  - exact Hinv.
  - intros xo o Hxo [Hsh Hcells].
    destruct (iadd_view_spec o yo xo Hyo Hxo Hsh) as (o' & E & Hsh' & Hitem).
    exists o'. split; [exact E|]. split; [congruence|].
    intros i j. rewrite Hitem, Hcells, block_row_S. ring.
  - exists out'. split; [exact E|]. split; [exact Hsh|].
    intros i j. rewrite Hcells, block_rows_S. unfold block_row at 3. simpl. ring.
Qed.

Lemma block_average_spec :
  exists out,
    block_average mat ys xs = Ok out /\
    shape out = (shape0 mat / ys, shape1 mat / xs) /\
    forall i j, item out i j = mean (block mat ys xs i j).
Proof.
  unfold block_average.
  destruct (for_range_inv (fun k o => acc_inv mat ys xs k 0 o) ys
              (fun yo out => for_ (range xs) (fun xo out =>
                 v <- np.getitem mat yo ys xo xs ;; np.iadd out v) out)
              (np.zeros (shape0 mat / ys, shape1 mat / xs)))
    as (out & E & Hsh & Hcells).
  - split; [reflexivity|]. intros i j. simpl. ring.
  - intros yo o Hyo Hinv. now apply accumulate_inner.
  - rewrite E. cbn [bind]. eexists. split; [reflexivity|].
    split; [exact Hsh|].
    intros i j. cbn [np.truediv item]. rewrite Hcells.
    unfold mean. rewrite block_length, (Nat.mul_comm xs ys).
    unfold block_row. simpl. rewrite Qcplus_0_r. reflexivity.
Qed.
End BlockAverage.
(* ------------------------------------------------------------------ *)
(** ** Numbers *)






(** Two grids are equal when their canonical fractions are. *)
Lemma grid_eq (l l' : list (list Qc)) :
  map (map this) l = map (map this) l' -> l = l'.
Proof.
  revert l'. induction l as [|r l IH]; intros [|r' l'] H; try discriminate; [reflexivity|].
  simpl in H. injection H as Hr Hl. f_equal; [|now apply IH].
  clear -Hr. revert r' Hr.
  induction r as [|x r IHr]; intros [|x' r'] H; try discriminate; [reflexivity|].
  simpl in H. injection H as Hx Hr. f_equal; [|now apply IHr].
  apply Qc_is_canon. now rewrite Hx.
Qed.

Lemma observe_ok (r : result ndarray) (sh : nat * nat) (l : list (list Qc)) :
  observe r = Some (sh, map (map this) l) ->
  exists out, r = Ok out /\ shape out = sh /\ tolist out = l.
Proof.
  destruct r as [a|e]; simpl; [|discriminate].
  intros H. injection H as Hs Hl.
  exists a. split; [reflexivity|]. split; [exact Hs | now apply grid_eq].
Qed.

(* ------------------------------------------------------------------ *)
(** ** The dispatch on the signs of the factors *)

Lemma scaleMatrix_up mat ys xs strict :
  0 < ys -> 0 < xs ->
  scaleMatrix mat (ints (Z.of_nat ys) (Z.of_nat xs)) strict = upscale mat ys xs.
Proof.
  intros Hy Hx. unfold scaleMatrix, ints, unpack.
  destruct (Z.eqb_spec (Z.of_nat xs) 0); [lia|].
  destruct (Z.gtb_spec (Z.of_nat xs) 0); [|lia].
  destruct (Z.gtb_spec (Z.of_nat ys) 0); [|lia].
  cbn [andb]. now rewrite !Nat2Z.id.
Qed.

Lemma scaleMatrix_down mat ys xs strict :
  0 < ys -> 0 < xs ->
  scaleMatrix mat (ints (- Z.of_nat ys) (- Z.of_nat xs)) strict
  = downscale mat ys xs strict.
Proof.
  intros Hy Hx. unfold scaleMatrix, ints, unpack.
  destruct (Z.eqb_spec (- Z.of_nat xs) 0); [lia|].
  destruct (Z.gtb_spec (- Z.of_nat xs) 0); [lia|].
  destruct (Z.ltb_spec (- Z.of_nat xs) 0); [|lia].
  destruct (Z.ltb_spec (- Z.of_nat ys) 0); [|lia].
  cbn [andb].
  replace (-1 * - Z.of_nat ys)%Z with (Z.of_nat ys) by lia.
  replace (-1 * - Z.of_nat xs)%Z with (Z.of_nat xs) by lia.
  now rewrite !Nat2Z.id.
Qed.

(** Which branch a pair of integers takes. *)
Lemma scaleMatrix_cases mat (y x : Z) strict :
  (x = 0 /\ y = 0 /\ scaleMatrix mat (ints y x) strict = Ok mat)%Z \/
  (exists ys xs, 0 < ys /\ 0 < xs /\ y = Z.of_nat ys /\ x = Z.of_nat xs /\
     scaleMatrix mat (ints y x) strict = upscale mat ys xs) \/
  (exists ys xs, 0 < ys /\ 0 < xs /\ y = (- Z.of_nat ys)%Z /\ x = (- Z.of_nat xs)%Z /\
     scaleMatrix mat (ints y x) strict = downscale mat ys xs strict) \/
  ((x <= 0 \/ y <= 0) /\ (x >= 0 \/ y >= 0) /\ (x <> 0 \/ y <> 0) /\
   scaleMatrix mat (ints y x) strict = Raise MixedDirectionScale)%Z.
Proof.
  destruct (Z.lt_trichotomy x 0) as [Hx|[Hx|Hx]];
    destruct (Z.lt_trichotomy y 0) as [Hy|[Hy|Hy]].
  - right. right. left. exists (Z.to_nat (- y)), (Z.to_nat (- x)).
    assert (Ey : y = (- Z.of_nat (Z.to_nat (- y)))%Z) by lia.
    assert (Ex : x = (- Z.of_nat (Z.to_nat (- x)))%Z) by lia.
    repeat split; try lia.
    rewrite Ey at 1. rewrite Ex at 1. apply scaleMatrix_down; lia.
  - do 3 right. repeat split; try lia. subst y. unfold scaleMatrix, ints, unpack.
    destruct (Z.eqb_spec x 0); [lia|]. destruct (Z.gtb_spec x 0); [lia|].
    cbn. now rewrite andb_false_r.
  - do 3 right. repeat split; try lia. unfold scaleMatrix, ints, unpack.
    destruct (Z.eqb_spec x 0); [lia|]. destruct (Z.gtb_spec x 0); [lia|].
    destruct (Z.ltb_spec y 0); [lia|]. cbn. now rewrite andb_false_r.
  - do 3 right. repeat split; try lia. subst x. unfold scaleMatrix, ints, unpack.
    destruct (Z.eqb_spec y 0); [lia|]. reflexivity.
  - left. subst. repeat split.
  - do 3 right. repeat split; try lia. subst x. unfold scaleMatrix, ints, unpack.
    destruct (Z.eqb_spec y 0); [lia|]. reflexivity.
  - do 3 right. repeat split; try lia. unfold scaleMatrix, ints, unpack.
    destruct (Z.eqb_spec x 0); [lia|]. destruct (Z.gtb_spec y 0); [lia|].
    destruct (Z.ltb_spec x 0); [lia|]. cbn. now rewrite andb_false_r.
  - do 3 right. repeat split; try lia. subst y. unfold scaleMatrix, ints, unpack.
    destruct (Z.eqb_spec x 0); [lia|]. destruct (Z.ltb_spec x 0); [lia|].
    cbn. now rewrite andb_false_r.
  - right. left. exists (Z.to_nat y), (Z.to_nat x).
    assert (Ey : y = Z.of_nat (Z.to_nat y)) by lia.
    assert (Ex : x = Z.of_nat (Z.to_nat x)) by lia.
    repeat split; try lia.
    rewrite Ey at 1. rewrite Ex at 1. apply scaleMatrix_up; lia.
Qed.

(* ------------------------------------------------------------------ *)
(** ** Padding *)

Lemma pad_amount_lt scale n : 0 < scale -> pad_amount scale n < scale.
Proof.
  intros H. unfold pad_amount.
  destruct (Nat.eqb_spec (scale - n mod scale) scale); lia.
Qed.

Lemma pad_amount_divisible scale n :
  0 < scale -> (n + pad_amount scale n) mod scale = 0.
Proof.
  intros H. unfold pad_amount.
  pose proof (Nat.mod_upper_bound n scale ltac:(lia)) as Hb.
  pose proof (Nat.div_mod_eq n scale) as E.
  destruct (Nat.eqb_spec (scale - n mod scale) scale) as [Heq|Hne].
  - rewrite Nat.add_0_r. lia.
  - replace (n + (scale - n mod scale)) with ((n / scale + 1) * scale) by lia.
    apply Nat.Div0.mod_mul.
Qed.

Lemma pad_amount_zero scale n :
  0 < scale -> (pad_amount scale n = 0 <-> n mod scale = 0).
Proof.
  intros H. unfold pad_amount.
  pose proof (Nat.mod_upper_bound n scale ltac:(lia)) as Hb.
  destruct (Nat.eqb_spec (scale - n mod scale) scale); lia.
Qed.

Lemma zero_pad_spec mat yPad xPad :
  exists p,
    zero_pad mat yPad xPad = Ok p /\
    shape p = (shape0 mat + yPad, shape1 mat + xPad) /\
    forall i j, i < shape0 mat + yPad -> j < shape1 mat + xPad ->
      item p i j =
      if (i <? shape0 mat) && (j <? shape1 mat) then item mat i j else 0%Qc.
Proof.
  unfold zero_pad.
  destruct (Nat.ltb_spec 0 yPad) as [Hy|Hy];
    destruct (Nat.ltb_spec 0 xPad) as [Hx|Hx];
    unfold np.concatenate, np.zeros, shape0, shape1;
    cbn [shape item fst snd bind]; rewrite ?Nat.eqb_refl; cbn [bind shape fst snd];
    rewrite ?Nat.eqb_refl;
    (eexists; split; [reflexivity|]; split).
  all: cbn [shape item].
  all: try (destruct (shape mat) as [R C]; cbn [fst snd]; f_equal; lia).
  all: intros i j Hi Hj;
    destruct (Nat.ltb_spec i (fst (shape mat)));
    destruct (Nat.ltb_spec j (snd (shape mat))); cbn [andb]; try reflexivity; lia.
Qed.

Lemma zero_pad_none mat : zero_pad mat 0 0 = Ok mat.
Proof. reflexivity. Qed.

(* ------------------------------------------------------------------ *)
(** ** The correction of the edges *)

Lemma correct_edges_none out ys xs : correct_edges out ys xs 0 0 = Ok out.
Proof. reflexivity. Qed.

(** The only exception the correction can raise is NumPy's. *)
Lemma correct_edges_raises out ys xs yPad xPad e :
  correct_edges out ys xs yPad xPad = Raise e ->
  e = IndexError "index -1 is out of bounds for axis with size 0".
Proof.
  unfold correct_edges, np.imul.
  destruct (0 <? yPad), (0 <? xPad); cbn [bind];
    repeat (match goal with
            | |- context [if ?b then Ok _ else Raise _] => destruct b; cbn [bind shape]
            end);
    intros H; congruence.
Qed.

Lemma imul_if_spec (b : bool) a iy ix k :
  0 < shape0 a -> 0 < shape1 a ->
  exists a',
    (if b then np.imul a iy ix k else Ok a) = Ok a' /\
    shape a' = shape a /\
    forall i j,
      item a' i j =
      if b && (np.selects (shape0 a) iy i && np.selects (shape1 a) ix j)
      then (item a i j * k)%Qc
      else item a i j.
Proof.
  intros H0 H1. destruct b.
  - unfold np.imul.
    assert (E : np.index_ok (shape0 a) iy && np.index_ok (shape1 a) ix = true).
    { apply Nat.ltb_lt in H0, H1. destruct iy, ix; simpl; now rewrite ?H0, ?H1. }
    rewrite E. eexists. split; [reflexivity|]. split; reflexivity.
  - exists a. repeat split.
Qed.


(* ------------------------------------------------------------------ *)
(** ** The scale-down branch *)

Lemma downscale_exact mat ys xs strict :
  0 < ys -> 0 < xs ->
  shape0 mat mod ys = 0 -> shape1 mat mod xs = 0 ->
  downscale mat ys xs strict = block_average mat ys xs.
Proof.
  intros Hys Hxs Hr Hc. unfold downscale.
  destruct strict.
  - rewrite Hr, Hc. cbn [Nat.eqb andb negb bind].
    destruct (block_average mat ys xs); reflexivity.
  - apply (pad_amount_zero ys _ Hys) in Hr. apply (pad_amount_zero xs _ Hxs) in Hc.
    rewrite Hr, Hc, zero_pad_none. cbn [bind].
    destruct (block_average mat ys xs); reflexivity.
Qed.

(** The lenient path, stage by stage. *)
Lemma downscale_lenient_stages mat ys xs :
  0 < ys -> 0 < xs ->
  exists padded raw,
    zero_pad mat (pad_amount ys (shape0 mat)) (pad_amount xs (shape1 mat))
      = Ok padded /\
    shape padded = (shape0 mat + pad_amount ys (shape0 mat),
                    shape1 mat + pad_amount xs (shape1 mat)) /\
    block_average padded ys xs = Ok raw /\
    shape raw = (shape0 padded / ys, shape1 padded / xs) /\
    (forall i j, item raw i j = mean (block padded ys xs i j)) /\
    downscale mat ys xs false
      = correct_edges raw ys xs (pad_amount ys (shape0 mat))
                                (pad_amount xs (shape1 mat)).
Proof.
  intros Hys Hxs.
  destruct (zero_pad_spec mat (pad_amount ys (shape0 mat))
              (pad_amount xs (shape1 mat))) as (p & Ep & Sp & _).
  assert (Sp0 : shape0 p = shape0 mat + pad_amount ys (shape0 mat))
    by (unfold shape0 at 1; now rewrite Sp).
  assert (Sp1 : shape1 p = shape1 mat + pad_amount xs (shape1 mat))
    by (unfold shape1 at 1; now rewrite Sp).
  destruct (block_average_spec p ys xs Hys Hxs) as (raw & Er & Sr & Ir).
  { rewrite Sp0. now apply pad_amount_divisible. }
  { rewrite Sp1. now apply pad_amount_divisible. }
  exists p, raw. repeat split; try assumption.
  unfold downscale. rewrite Ep. cbn [bind]. rewrite Er. reflexivity.
Qed.

Lemma downscale_lenient_raises mat ys xs e :
  0 < ys -> 0 < xs ->
  downscale mat ys xs false = Raise e ->
  e = IndexError "index -1 is out of bounds for axis with size 0".
Proof.
  intros Hys Hxs.
  destruct (downscale_lenient_stages mat ys xs Hys Hxs)
    as (p & raw & _ & _ & _ & _ & _ & E).
  rewrite E. apply correct_edges_raises.
Qed.


(* ------------------------------------------------------------------ *)
(** ** Arrays of doubles: the two branches *)

Lemma shape_eta_f64 a : F64.shape a = (F64.shape0 a, F64.shape1 a).
Proof. unfold F64.shape0, F64.shape1. now destruct (F64.shape a). Qed.

Lemma sum_snoc_f64 l x : F64.sum (l ++ [x]) = (F64.sum l + x)%float.
Proof. unfold F64.sum. now rewrite fold_left_app. Qed.

Lemma block_row_S_f64 mat ys xs i j yo n :
  F64.block_row mat ys xs i j yo (S n)
  = F64.block_row mat ys xs i j yo n
    ++ [F64.item mat (i * ys + yo) (j * xs + n)].
Proof. unfold F64.block_row, range. now rewrite seq_S, map_app. Qed.

Lemma block_rows_S_f64 mat ys xs i j a :
  F64.block_rows mat ys xs i j (S a)
  = F64.block_rows mat ys xs i j a ++ F64.block_row mat ys xs i j a xs.
Proof.
  unfold F64.block_rows, range. rewrite seq_S, flat_map_app. simpl.
  now rewrite app_nil_r.
Qed.

Lemma block_length_f64 mat ys xs i j :
  length (F64.block mat ys xs i j) = ys * xs.
Proof.
  unfold F64.block, range. now rewrite flat_map_map_length, !length_seq.
Qed.

Section UpscaleF64.
Variables (mat : F64.ndarray) (ys xs : nat).
Hypothesis Hys : 0 < ys.
Hypothesis Hxs : 0 < xs.

Lemma setitem_upscale_f64 out yo xo :
  yo < ys -> xo < xs ->
  F64.shape out = (F64.shape0 mat * ys, F64.shape1 mat * xs) ->
  exists out',
    F64.np.setitem out yo ys xo xs mat = Ok out' /\
    F64.shape out' = F64.shape out /\
    forall r c,
      F64.item out' r c =
      if np.in_slice (F64.shape0 mat * ys) yo ys r
         && np.in_slice (F64.shape1 mat * xs) xo xs c
      then F64.item mat ((r - yo) / ys) ((c - xo) / xs)
      else F64.item out r c.
Proof.
  intros Hyo Hxo Hs.
  unfold F64.np.setitem, F64.np.getitem.
  destruct (Nat.eqb_spec ys 0); [lia|].
  destruct (Nat.eqb_spec xs 0); [lia|].
  cbn [orb bind F64.shape].
  unfold F64.shape0, F64.shape1. rewrite Hs. cbn [fst snd].
  rewrite !slice_len_full by assumption.
  fold (F64.shape0 mat) (F64.shape1 mat).
  rewrite <- shape_eta_f64, shape_eqb_refl.
  eexists. split; [reflexivity|]. split; reflexivity.
Qed.

Lemma upscale_inner_f64 out yo :
  yo < ys -> F64.up_inv mat ys xs yo 0 out ->
  exists out',
    for_ (range xs) (fun xo out => F64.np.setitem out yo ys xo xs mat) out
      = Ok out' /\
    F64.up_inv mat ys xs (S yo) 0 out'.
Proof.
  intros Hyo Hinv.
  destruct (for_range_inv (fun k o => F64.up_inv mat ys xs yo k o) xs
              (fun xo out => F64.np.setitem out yo ys xo xs mat) out)
    as (out' & E & Hout').
  - exact Hinv.
  - intros xo o Hxo [Hsh Hcells].
    destruct (setitem_upscale_f64 o yo xo Hyo Hxo Hsh) as (o' & E & Hsh' & Hitem).
    exists o'. split; [exact E|]. split; [congruence|].
    intros r c Hr Hc Hdone. rewrite Hitem.
    destruct (np.in_slice (F64.shape0 mat * ys) yo ys r
              && np.in_slice (F64.shape1 mat * xs) xo xs c) eqn:Hin.
    + apply andb_true_iff in Hin. destruct Hin as [Hin1 Hin2].
      apply in_slice_iff in Hin1; [|assumption].
      apply in_slice_iff in Hin2; [|assumption].
      rewrite (sub_div_of_mod r ys yo), (sub_div_of_mod c xs xo); tauto.
    + apply Hcells; try assumption.
      destruct Hdone as [Hd|[Hd1 Hd2]]; [now left|].
      right. split; [assumption|].
      assert (c mod xs <> xo).
      { intros Heq. rewrite andb_false_iff in Hin.
        destruct Hin as [Hin|Hin];
          [assert (np.in_slice (F64.shape0 mat * ys) yo ys r = true)
             by (apply in_slice_iff; auto)
          |assert (np.in_slice (F64.shape1 mat * xs) xo xs c = true)
             by (apply in_slice_iff; auto)];
          congruence. }
      lia.
  - exists out'. split; [exact E|].
    destruct Hout' as [Hsh Hcells]. split; [exact Hsh|].
    intros r c Hr Hc Hdone. apply Hcells; try assumption.
    destruct Hdone as [Hd|[Hd1 Hd2]]; [|lia].
    assert (c mod xs < xs) by (apply Nat.mod_upper_bound; lia).
    lia.
Qed.

Lemma upscale_spec_f64 :
  exists out,
    F64.upscale mat ys xs = Ok out /\
    F64.shape out = (F64.shape0 mat * ys, F64.shape1 mat * xs) /\
    forall r c, r < F64.shape0 mat * ys -> c < F64.shape1 mat * xs ->
      F64.item out r c = F64.item mat (r / ys) (c / xs).
Proof.
  unfold F64.upscale.
  destruct (for_range_inv (fun k o => F64.up_inv mat ys xs k 0 o) ys
              (fun yo out => for_ (range xs)
                 (fun xo out => F64.np.setitem out yo ys xo xs mat) out)
              (F64.np.zeros (F64.shape0 mat * ys, F64.shape1 mat * xs)))
    as (out & E & Hsh & Hcells).
  - split; [reflexivity|]. intros r c _ _ H. lia.
  - intros yo o Hyo Hinv. now apply upscale_inner_f64.
  - exists out. split; [exact E|]. split; [exact Hsh|].
    intros r c Hr Hc. apply Hcells; try assumption.
    left. apply Nat.mod_upper_bound. lia.
Qed.
End UpscaleF64.

Section BlockAverageF64.
Variables (mat : F64.ndarray) (ys xs : nat).
Hypothesis Hys : 0 < ys.
Hypothesis Hxs : 0 < xs.
Hypothesis Hrows : F64.shape0 mat mod ys = 0.
Hypothesis Hcols : F64.shape1 mat mod xs = 0.

Lemma iadd_view_spec_f64 out yo xo :
  yo < ys -> xo < xs ->
  F64.shape out = (F64.shape0 mat / ys, F64.shape1 mat / xs) ->
  exists out',
    (v <- F64.np.getitem mat yo ys xo xs ;; F64.np.iadd out v) = Ok out' /\
    F64.shape out' = F64.shape out /\
    forall i j,
      F64.item out' i j
      = (F64.item out i j + F64.item mat (i * ys + yo) (j * xs + xo))%float.
Proof.
  intros Hyo Hxo Hs.
  unfold F64.np.getitem, F64.np.iadd.
  destruct (Nat.eqb_spec ys 0); [lia|].
  destruct (Nat.eqb_spec xs 0); [lia|].
  cbn [orb bind F64.shape F64.item].
  rewrite !slice_len_divisible by assumption.
  rewrite Hs, shape_eqb_refl.
  eexists. split; [reflexivity|]. split; [reflexivity|].
  intros i j. cbn [F64.item].
  now rewrite (Nat.add_comm yo), (Nat.add_comm xo).
Qed.

Lemma accumulate_inner_f64 out yo :
  yo < ys -> F64.acc_inv mat ys xs yo 0 out ->
  exists out',
    for_ (range xs) (fun xo out =>
      v <- F64.np.getitem mat yo ys xo xs ;; F64.np.iadd out v) out = Ok out' /\
    F64.acc_inv mat ys xs (S yo) 0 out'.
Proof.
  intros Hyo Hinv.
  destruct (for_range_inv (fun k o => F64.acc_inv mat ys xs yo k o) xs
              (fun xo out => v <- F64.np.getitem mat yo ys xo xs ;; F64.np.iadd out v)
              out) as (out' & E & Hsh & Hcells).
  - exact Hinv.
  - intros xo o Hxo [Hsh Hcells].
    destruct (iadd_view_spec_f64 o yo xo Hyo Hxo Hsh) as (o' & E & Hsh' & Hitem).
    exists o'. split; [exact E|]. split; [congruence|].
    intros i j.
    now rewrite Hitem, Hcells, block_row_S_f64, app_assoc, sum_snoc_f64.
  - exists out'. split; [exact E|]. split; [exact Hsh|].
    intros i j. rewrite Hcells, block_rows_S_f64.
    unfold F64.block_row at 3. simpl. now rewrite app_nil_r.
Qed.

Lemma block_average_spec_f64 :
  exists out,
    F64.block_average mat ys xs = Ok out /\
    F64.shape out = (F64.shape0 mat / ys, F64.shape1 mat / xs) /\
    forall i j, F64.item out i j = F64.mean (F64.block mat ys xs i j).
Proof.
  unfold F64.block_average.
  destruct (for_range_inv (fun k o => F64.acc_inv mat ys xs k 0 o) ys
              (fun yo out => for_ (range xs) (fun xo out =>
                 v <- F64.np.getitem mat yo ys xo xs ;; F64.np.iadd out v) out)
              (F64.np.zeros (F64.shape0 mat / ys, F64.shape1 mat / xs)))
    as (out & E & Hsh & Hcells).
  - split; [reflexivity|]. intros i j. reflexivity.
  - intros yo o Hyo Hinv. now apply accumulate_inner_f64.
  - rewrite E. cbn [bind]. eexists. split; [reflexivity|].
    split; [exact Hsh|].
    intros i j. cbn [F64.np.truediv F64.item]. rewrite Hcells.
    unfold F64.mean. rewrite block_length_f64, (Nat.mul_comm xs ys).
    unfold F64.block_row. simpl. rewrite app_nil_r. reflexivity.
Qed.
End BlockAverageF64.

Lemma scaleMatrix_up_f64 mat ys xs strict :
  0 < ys -> 0 < xs ->
  F64.scaleMatrix mat (ints (Z.of_nat ys) (Z.of_nat xs)) strict
  = F64.upscale mat ys xs.
Proof.
  intros Hy Hx. unfold F64.scaleMatrix, ints, unpack.
  destruct (Z.eqb_spec (Z.of_nat xs) 0); [lia|].
  destruct (Z.gtb_spec (Z.of_nat xs) 0); [|lia].
  destruct (Z.gtb_spec (Z.of_nat ys) 0); [|lia].
  cbn [andb]. now rewrite !Nat2Z.id.
Qed.

Lemma scaleMatrix_down_f64 mat ys xs strict :
  0 < ys -> 0 < xs ->
  F64.scaleMatrix mat (ints (- Z.of_nat ys) (- Z.of_nat xs)) strict
  = F64.downscale mat ys xs strict.
Proof.
  intros Hy Hx. unfold F64.scaleMatrix, ints, unpack.
  destruct (Z.eqb_spec (- Z.of_nat xs) 0); [lia|].
  destruct (Z.gtb_spec (- Z.of_nat xs) 0); [lia|].
  destruct (Z.ltb_spec (- Z.of_nat xs) 0); [|lia].
  destruct (Z.ltb_spec (- Z.of_nat ys) 0); [|lia].
  cbn [andb].
  replace (-1 * - Z.of_nat ys)%Z with (Z.of_nat ys) by lia.
  replace (-1 * - Z.of_nat xs)%Z with (Z.of_nat xs) by lia.
  now rewrite !Nat2Z.id.
Qed.

Lemma downscale_exact_f64 mat ys xs strict :
  0 < ys -> 0 < xs ->
  F64.shape0 mat mod ys = 0 -> F64.shape1 mat mod xs = 0 ->
  F64.downscale mat ys xs strict = F64.block_average mat ys xs.
Proof.
  intros Hys Hxs Hr Hc. unfold F64.downscale.
  destruct strict.
  - rewrite Hr, Hc. cbn [Nat.eqb andb negb bind].
    destruct (F64.block_average mat ys xs); reflexivity.
  - apply (pad_amount_zero ys _ Hys) in Hr. apply (pad_amount_zero xs _ Hxs) in Hc.
    rewrite Hr, Hc. unfold F64.zero_pad. cbn [Nat.ltb Nat.leb bind].
    destruct (F64.block_average mat ys xs); reflexivity.
Qed.

(* ------------------------------------------------------------------ *)
(** ** The object store *)

Module ObjFacts.
Import ObjSpec.

Lemma deref_old (H t : Obj.heap) (r : Obj.ref) :
  r < length H -> Obj.deref (H ++ t) r = Obj.deref H r.
Proof. intros Hr. unfold Obj.deref. now apply app_nth1. Qed.

Lemma deref_new (H : Obj.heap) (a : ndarray) (t : Obj.heap) :
  Obj.deref (H ++ a :: t) (length H) = a.
Proof. unfold Obj.deref. apply nth_middle. Qed.

Lemma update_new (H : Obj.heap) (a b : ndarray) :
  Obj.update (length H) b (H ++ [a]) = H ++ [b].
Proof. induction H as [|c H IH]; simpl; [reflexivity | now rewrite IH]. Qed.

Lemma for_inplace {A} (xs : list A) (body : A -> Obj.M unit)
      (f : A -> ndarray -> result ndarray) (H : Obj.heap) :
  (forall x, inplace H (body x) (f x)) ->
  inplace H (Obj.for_ xs body) (for_ xs f).
Proof.
  intros Hbody. induction xs as [|x xs IH]; intros a.
  - exists a. split; [reflexivity|]. simpl. congruence.
  - destruct (Hbody x a) as (a1 & E1 & O1).
    cbn [Obj.for_ for_]. unfold Obj.bind at 1. rewrite E1.
    destruct (f x a) as [o|e] eqn:Ef; cbn [bind].
    + rewrite (O1 o eq_refl). apply IH.
    + exists a1. split; [reflexivity|]. discriminate.
Qed.

Lemma setitem_inplace (H : Obj.heap) (mat : Obj.ref) yo ys xo xs :
  mat < length H ->
  inplace H (Obj.setitem (length H) yo ys xo xs mat)
            (fun a => np.setitem a yo ys xo xs (Obj.deref H mat)).
Proof.
  intros Hm a. unfold Obj.setitem, Obj.bind, Obj.load, Obj.lift, Obj.store.
  rewrite deref_new, deref_old by assumption.
  destruct (np.setitem a yo ys xo xs (Obj.deref H mat)) as [o|e].
  - exists o. rewrite update_new. split; [reflexivity | congruence].
  - exists a. split; [reflexivity | discriminate].
Qed.

Lemma iadd_view_inplace (H : Obj.heap) (mat : Obj.ref) yo ys xo xs :
  mat < length H ->
  inplace H (Obj.iadd_view (length H) mat yo ys xo xs)
            (fun a => v <- np.getitem (Obj.deref H mat) yo ys xo xs ;; np.iadd a v).
Proof.
  intros Hm a. unfold Obj.iadd_view, Obj.bind, Obj.load, Obj.lift, Obj.store.
  rewrite deref_old by assumption.
  destruct (np.getitem (Obj.deref H mat) yo ys xo xs) as [v|e]; cbn [bind].
  - rewrite deref_new.
    destruct (np.iadd a v) as [o|e].
    + exists o. rewrite update_new. split; [reflexivity | congruence].
    + exists a. split; [reflexivity | discriminate].
  - exists a. split; [reflexivity | discriminate].
Qed.

Lemma imul_if_inplace (H : Obj.heap) (b : bool) iy ix k :
  inplace H (if b then Obj.imul (length H) iy ix k else Obj.ret tt)
            (fun a => if b then np.imul a iy ix k else Ok a).
Proof.
  intros a. destruct b.
  - unfold Obj.imul, Obj.bind, Obj.load, Obj.lift, Obj.store. rewrite deref_new.
    destruct (np.imul a iy ix k) as [o|e].
    + exists o. rewrite update_new. split; [reflexivity | congruence].
    + exists a. split; [reflexivity | discriminate].
  - exists a. split; [reflexivity | congruence].
Qed.

Lemma seq_inplace (H : Obj.heap) (c1 c2 : Obj.M unit) r1 r2 :
  inplace H c1 r1 -> inplace H c2 r2 ->
  inplace H (Obj.bind c1 (fun _ => c2)) (fun a => a' <- r1 a ;; r2 a').
Proof.
  intros H1 H2 a. destruct (H1 a) as (a1 & E1 & O1).
  unfold Obj.bind. rewrite E1.
  destruct (r1 a) as [o|e]; cbn [bind].
  - rewrite (O1 o eq_refl). apply H2.
  - exists a1. split; [reflexivity | discriminate].
Qed.

Lemma upscale_refines (H : Obj.heap) (mat : Obj.ref) ys xs :
  mat < length H ->
  exists a',
    Obj.upscale mat ys xs H =
      (match upscale (Obj.deref H mat) ys xs with
       | Ok _ => Ok (length H)
       | Raise e => Raise e
       end, H ++ [a']) /\
    (forall o, upscale (Obj.deref H mat) ys xs = Ok o -> a' = o).
Proof.
  intros Hm. unfold Obj.upscale, upscale.
  unfold Obj.bind at 1. unfold Obj.shape, Obj.bind at 1, Obj.load, Obj.ret.
  unfold Obj.bind at 1, Obj.zeros, Obj.alloc.
  destruct (for_inplace (range ys)
              (fun yo => Obj.for_ (range xs) (fun xo =>
                 Obj.setitem (length H) yo ys xo xs mat))
              (fun yo out => for_ (range xs) (fun xo out =>
                 np.setitem out yo ys xo xs (Obj.deref H mat)) out) H)
    with (a := np.zeros (fst (shape (Obj.deref H mat)) * ys,
                         snd (shape (Obj.deref H mat)) * xs))
    as (a' & E & O).
  { intros yo. apply for_inplace. intros xo. now apply setitem_inplace. }
  unfold Obj.bind. rewrite E. exists a'. split; [|exact O].
  unfold shape0, shape1.
  destruct (for_ (range ys) _ _); reflexivity.
Qed.

Lemma inplace_ext (H : Obj.heap) c r r' :
  (forall a, r a = r' a) -> inplace H c r -> inplace H c r'.
Proof.
  intros E Hc a. destruct (Hc a) as (a' & E1 & O1).
  exists a'. rewrite <- E. split; assumption.
Qed.

Lemma bind_Ok_r {A} (r : result A) : (a <- r ;; Ok a) = r.
Proof. now destruct r. Qed.

Lemma correct_edges_inplace (H : Obj.heap) ys xs yPad xPad :
  inplace H (Obj.correct_edges (length H) ys xs yPad xPad)
            (fun a => correct_edges a ys xs yPad xPad).
Proof.
  unfold Obj.correct_edges, correct_edges.
  eapply inplace_ext;
    [| apply seq_inplace; [apply imul_if_inplace|];
       apply seq_inplace; apply imul_if_inplace].
  intros a. cbn beta.
  destruct (if 0 <? yPad then np.imul a _ _ _ else Ok a) as [a1|]; [|reflexivity].
  cbn [bind].
  destruct (if 0 <? xPad then np.imul a1 _ _ _ else Ok a1) as [a2|]; [|reflexivity].
  cbn [bind]. now rewrite bind_Ok_r.
Qed.

Lemma returns_ret fresh (H : Obj.heap) (r : Obj.ref) :
  r < length H -> (fresh = true -> False) ->
  returns fresh H (Obj.ret r H) (Ok (Obj.deref H r)).
Proof.
  intros Hr Hf. exists []. rewrite app_nil_r. split; [reflexivity|].
  exists r. repeat split; try assumption. intros F. now destruct (Hf F).
Qed.

Lemma returns_bind fresh fresh' (H : Obj.heap) (c : Obj.M Obj.ref)
      (k : Obj.ref -> Obj.M Obj.ref) r f :
  returns fresh' H (c H) r ->
  (forall H' out, out < length H' -> length H <= length H' ->
     (forall q, q < length H -> Obj.deref H' q = Obj.deref H q) ->
     (exists t, H' = H ++ t) ->
     returns fresh H' (k out H') (f (Obj.deref H' out))) ->
  returns fresh H (Obj.bind c k H) (bind r f).
Proof.
  intros (t & Ht & Hc) Hk. unfold Obj.bind.
  destruct (c H) as [x H1]. cbn [fst snd] in *. subst H1.
  destruct r as [o|e]; cbn [bind].
  - destruct Hc as (out & -> & Hlive & Hd & _).
    destruct (Hk (H ++ t) out Hlive) as (t' & Ht' & Hres).
    + rewrite length_app. lia.
    + intros q Hq. now apply deref_old.
    + now exists t.
    + exists (t ++ t'). rewrite app_assoc, <- Ht'. split; [reflexivity|].
      rewrite Hd in Hres. destruct (f o) as [o'|e']; [|exact Hres].
      destruct Hres as (out' & E & Hl & Hd' & Hf).
      exists out'. rewrite <- Ht' in *. repeat split; try assumption.
      intros F. specialize (Hf F). rewrite length_app in Hf. lia.
  - rewrite Hc. exists t. split; reflexivity.
Qed.

Lemma pad_step_refines (H : Obj.heap) (mat : Obj.ref) (b : bool)
      (sh : nat * nat -> nat * nat) (axis : nat) :
  mat < length H ->
  returns false H
    ((if b
      then Obj.bind (Obj.shape mat) (fun s =>
             Obj.bind (Obj.zeros (sh s)) (fun z =>
               Obj.concatenate mat z axis))
      else Obj.ret mat) H)
    (if b
     then np.concatenate (Obj.deref H mat)
            (np.zeros (sh (shape (Obj.deref H mat)))) axis
     else Ok (Obj.deref H mat)).
Proof.
  intros Hm. destruct b.
  - obj_run. rewrite deref_old, deref_new by assumption.
    set (z := np.zeros (sh (shape (Obj.deref H mat)))).
    destruct (np.concatenate _ _ axis) as [c|e].
    + exists ([z] ++ [c]).
      rewrite app_assoc. split; [reflexivity|].
      exists (length (H ++ [z])).
      repeat split.
      * rewrite !length_app. simpl. lia.
      * apply deref_new.
      * discriminate.
    + exists [z]. split; reflexivity.
  - apply returns_ret; [assumption | discriminate].
Qed.

Lemma zero_pad_refines (H : Obj.heap) (mat : Obj.ref) yPad xPad :
  mat < length H ->
  returns false H (Obj.zero_pad mat yPad xPad H)
                  (zero_pad (Obj.deref H mat) yPad xPad).
Proof.
  intros Hm. unfold Obj.zero_pad, zero_pad.
  eapply returns_bind.
  - apply (pad_step_refines H mat (0 <? yPad) (fun s => (yPad, snd s)) 0 Hm).
  - intros H1 m1 Hm1 _ _ _. cbn beta.
    eapply returns_bind.
    + apply (pad_step_refines H1 m1 (0 <? xPad) (fun s => (fst s, xPad)) 1 Hm1).
    + intros H2 m2 Hm2 _ _ _. cbn beta.
      apply returns_ret; [assumption | discriminate].
Qed.

Lemma block_average_refines (H : Obj.heap) (mat : Obj.ref) ys xs :
  mat < length H ->
  exists acc,
    Obj.block_average mat ys xs H =
      match block_average (Obj.deref H mat) ys xs with
      | Ok o => (Ok (length (H ++ [acc])), (H ++ [acc]) ++ [o])
      | Raise e => (Raise e, H ++ [acc])
      end.
Proof.
  intros Hm. unfold Obj.block_average, block_average.
  unfold Obj.bind at 1. unfold Obj.shape, Obj.bind at 1, Obj.load, Obj.ret.
  unfold Obj.bind at 1, Obj.zeros, Obj.alloc.
  destruct (for_inplace (range ys)
              (fun yo => Obj.for_ (range xs) (fun xo =>
                 Obj.iadd_view (length H) mat yo ys xo xs))
              (fun yo out => for_ (range xs) (fun xo out =>
                 v <- np.getitem (Obj.deref H mat) yo ys xo xs ;; np.iadd out v) out) H)
    with (a := np.zeros (fst (shape (Obj.deref H mat)) / ys,
                         snd (shape (Obj.deref H mat)) / xs))
    as (a' & E & O).
  { intros yo. apply for_inplace. intros xo. now apply iadd_view_inplace. }
  unfold Obj.bind. rewrite E. exists a'.
  unfold shape0, shape1.
  destruct (for_ (range ys) _ _) as [o|e]; cbn [bind]; [|reflexivity].
  obj_run. rewrite deref_new, (O o eq_refl). reflexivity.
Qed.

Lemma returns_weaken fresh (H : Obj.heap) x r :
  returns true H x r -> returns fresh H x r.
Proof.
  intros (t & Ht & Hr). exists t. split; [exact Ht|].
  destruct r as [o|e]; [|exact Hr].
  destruct Hr as (out & E & Hl & Hd & Hf).
  exists out. repeat split; try assumption. intros _. now apply Hf.
Qed.

Lemma returns_extend fresh (H t : Obj.heap) x r :
  returns fresh (H ++ t) x r -> returns fresh H x r.
Proof.
  intros (t' & Ht & Hr). exists (t ++ t'). rewrite app_assoc.
  split; [exact Ht|].
  destruct r as [o|e]; [|exact Hr].
  destruct Hr as (out & E & Hl & Hd & Hf).
  exists out. repeat split; try assumption.
  intros F. specialize (Hf F). rewrite length_app in Hf. lia.
Qed.

Lemma upscale_returns (H : Obj.heap) (mat : Obj.ref) ys xs :
  mat < length H ->
  returns true H (Obj.upscale mat ys xs H) (upscale (Obj.deref H mat) ys xs).
Proof.
  intros Hm. destruct (upscale_refines H mat ys xs Hm) as (a' & E & O).
  rewrite E. exists [a']. split; [reflexivity|].
  destruct (upscale (Obj.deref H mat) ys xs) as [o|e]; [|reflexivity].
  exists (length H). rewrite (O o eq_refl). repeat split.
  - rewrite length_app. simpl. lia.
  - apply deref_new.
  - lia.
Qed.

(** Lines 200-209 on the store. *)
Lemma average_and_correct_returns (H : Obj.heap) (mat : Obj.ref)
      ys xs yPad xPad :
  mat < length H ->
  returns true H
    (Obj.bind (Obj.block_average mat ys xs) (fun out =>
       Obj.bind (Obj.correct_edges out ys xs yPad xPad) (fun _ =>
         Obj.ret out)) H)
    (out <- block_average (Obj.deref H mat) ys xs ;;
     correct_edges out ys xs yPad xPad).
Proof.
  intros Hm. destruct (block_average_refines H mat ys xs Hm) as (acc & E).
  unfold Obj.bind at 1. rewrite E.
  destruct (block_average (Obj.deref H mat) ys xs) as [o|e]; cbn [bind].
  - destruct (correct_edges_inplace (H ++ [acc]) ys xs yPad xPad o)
      as (a' & E' & O').
    unfold Obj.bind. rewrite E'.
    exists ([acc] ++ [a']). rewrite app_assoc.
    destruct (correct_edges o ys xs yPad xPad) as [o'|e'].
    + split; [reflexivity|]. exists (length (H ++ [acc])).
      rewrite (O' o' eq_refl). repeat split.
      * rewrite !length_app. simpl. lia.
      * apply deref_new.
      * rewrite length_app. lia.
    + split; reflexivity.
  - exists [acc]. split; reflexivity.
Qed.

Lemma downscale_returns (H : Obj.heap) (mat : Obj.ref) ys xs strict :
  mat < length H ->
  returns true H (Obj.downscale mat ys xs strict H)
                 (downscale (Obj.deref H mat) ys xs strict).
Proof.
  intros Hm. unfold Obj.downscale, downscale, shape0, shape1.
  destruct strict.
  - unfold Obj.bind at 1. unfold Obj.bind at 1, Obj.shape, Obj.bind at 1,
      Obj.load, Obj.ret.
    destruct (negb _).
    + exists []. rewrite app_nil_r. split; reflexivity.
    + cbn [bind]. now apply average_and_correct_returns.
  - unfold Obj.bind at 1. unfold Obj.bind at 1, Obj.shape, Obj.bind at 1,
      Obj.load, Obj.ret.
    cbv zeta. unfold Obj.bind at 1.
    destruct (zero_pad_refines H mat
                (pad_amount ys (fst (shape (Obj.deref H mat))))
                (pad_amount xs (snd (shape (Obj.deref H mat)))) Hm)
      as (t & Ht & Hr).
    destruct (Obj.zero_pad mat _ _ H) as [x H1]. cbn [fst snd] in Ht, Hr.
    subst H1.
    destruct (zero_pad (Obj.deref H mat) _ _) as [p|e]; cbn [bind].
    + destruct Hr as (m1 & -> & Hl & Hd & _). subst p.
      apply (returns_extend _ H t). now apply average_and_correct_returns.
    + rewrite Hr. exists t. split; reflexivity.
Qed.

(** The two readings of [scaleMatrix] agree: started on a live reference
    [mat], the run on the store only appends to the store, raises what
    the function on values raises, and otherwise returns a reference to
    the array the function on values returns; unless both factors are
    zero, that reference is new. *)
Theorem scaleMatrix_refines fresh (H : Obj.heap) (mat : Obj.ref) scale strict :
  mat < length H ->
  (fresh = true -> unpack scale <> (PyInt 0, PyInt 0)) ->
  returns fresh H (Obj.scaleMatrix mat scale strict H)
                  (scaleMatrix (Obj.deref H mat) scale strict).
Proof.
  intros Hm Hf. unfold Obj.scaleMatrix, scaleMatrix.
  destruct (unpack scale) as [[y|] [x|]];
    try (exists []; rewrite app_nil_r; split; reflexivity).
  destruct ((x =? 0)%Z && (y =? 0)%Z) eqn:E0.
  - apply returns_ret; [assumption|].
    intros F. apply (Hf F).
    apply andb_true_iff in E0. destruct E0 as [Ex Ey].
    apply Z.eqb_eq in Ex, Ey. now subst.
  - destruct ((x >? 0)%Z && (y >? 0)%Z).
    + apply returns_weaken. now apply upscale_returns.
    + destruct ((x <? 0)%Z && (y <? 0)%Z).
      * apply returns_weaken. now apply downscale_returns.
      * exists []. rewrite app_nil_r. split; reflexivity.
Qed.
End ObjFacts.

(* ------------------------------------------------------------------ *)
(** ** Scaling up *)

(** C5. For every grid of [rows] by [cols] cells and every pair of positive
    factors, the call returns a grid of [rows*rowScale] by [cols*colScale]
    cells whose cell [(r, c)] is the input cell
    [(r // rowScale, c // colScale)]: each input cell is copied into a block
    of [rowScale] by [colScale] equal cells, and nothing is averaged. *)
Theorem C5_upscale_replicates (mat : ndarray) (rowScale colScale : nat)
        (strict : bool) :
  0 < rowScale -> 0 < colScale ->
  exists out,
    scaleMatrix mat (ints (Z.of_nat rowScale) (Z.of_nat colScale)) strict = Ok out /\
    shape out = (shape0 mat * rowScale, shape1 mat * colScale) /\
    forall r c, r < shape0 mat * rowScale -> c < shape1 mat * colScale ->
      item out r c = item mat (r / rowScale) (c / colScale).
Proof.
  intros Hy Hx. rewrite scaleMatrix_up by assumption.
  now apply upscale_spec.
Qed.

Lemma C5_upscale_replicates_witness :
  0 < 2 /\ 0 < 3 /\
  exists out,
    scaleMatrix grid_2x2 (ints 2 3) true = Ok out /\
    shape out = (shape0 grid_2x2 * 2, shape1 grid_2x2 * 3) /\
    forall r c, r < shape0 grid_2x2 * 2 -> c < shape1 grid_2x2 * 3 ->
      item out r c = item grid_2x2 (r / 2) (c / 3).
Proof.
  split; [lia|]. split; [lia|].
  apply (C5_upscale_replicates grid_2x2 2 3 true); lia.
Defined.

(* ------------------------------------------------------------------ *)
(** ** Scaling down by factors that divide the dimensions *)





(* ------------------------------------------------------------------ *)
(** ** The worked example of the docstring *)

(** C3. On the 4x4 grid [[1,1,1,1],[2,2,3,3],[4,4,5,5],[6,7,8,9]], scaling
    by [(-3,-3)] with [strict=False] succeeds and returns the 2x2 grid
    [[23/9, 3],[7, 9]]. *)
Theorem C3_worked_example :
  tolist example_grid
    = map (map of_nat) [[1; 1; 1; 1]; [2; 2; 3; 3]; [4; 4; 5; 5]; [6; 7; 8; 9]] /\
  exists out,
    scaleMatrix example_grid (ints (-3) (-3)) false = Ok out /\
    shape out = (2, 2) /\
    tolist out = [[frac 23 9; of_nat 3]; [of_nat 7; of_nat 9]].
Proof.
  split; [reflexivity|].
  apply observe_ok. vm_compute. reflexivity.
Qed.

(* ------------------------------------------------------------------ *)
(** ** Round trips *)

Lemma div_block i s o : o < s -> (i * s + o) / s = i.
Proof.
  intros H. symmetry. apply (Nat.div_unique _ _ _ o); lia.
Qed.


Lemma flat_map_repeat {A B} (v : B) (n : nat) (l : list A) :
  flat_map (fun _ => repeat v n) l = repeat v (length l * n).
Proof.
  induction l as [|a l IH]; simpl; [reflexivity|].
  now rewrite IH, repeat_app.
Qed.

Lemma map_const_repeat {A B} (v : B) (l : list A) :
  map (fun _ => v) l = repeat v (length l).
Proof. induction l as [|a l IH]; simpl; [reflexivity | now rewrite IH]. Qed.

Lemma flat_map_ext_on {A B} (f g : A -> list B) (l : list A) :
  (forall a, In a l -> f a = g a) -> flat_map f l = flat_map g l.
Proof.
  induction l as [|a l IH]; intros H; simpl; [reflexivity|].
  rewrite (H a) by now left.
  rewrite IH; [reflexivity|]. intros b Hb. apply H. now right.
Qed.

Lemma block_const_f64 mat ys xs i j v :
  (forall yo xo, yo < ys -> xo < xs ->
     F64.item mat (i * ys + yo) (j * xs + xo) = v) ->
  F64.block mat ys xs i j = repeat v (ys * xs).
Proof.
  intros H. unfold F64.block, range.
  rewrite (flat_map_ext_on _ (fun _ => repeat v xs)).
  - now rewrite flat_map_repeat, length_seq.
  - intros yo Hyo. apply in_seq in Hyo.
    rewrite (map_ext_in _ (fun _ => v)).
    + now rewrite map_const_repeat, length_seq.
    + intros xo Hxo. apply in_seq in Hxo. apply H; lia.
Qed.

(** Replicate, then average: every cell is averaged with itself. *)
Lemma upscale_then_downscale_f64 (mat : F64.ndarray) (ys xs : nat) :
  0 < ys -> 0 < xs ->
  exists up back,
    F64.scaleMatrix mat (ints (Z.of_nat ys) (Z.of_nat xs)) true = Ok up /\
    F64.scaleMatrix up (ints (- Z.of_nat ys) (- Z.of_nat xs)) true = Ok back /\
    F64.shape back = F64.shape mat /\
    forall i j, i < F64.shape0 mat -> j < F64.shape1 mat ->
      F64.item back i j = F64.mean (repeat (F64.item mat i j) (ys * xs)).
Proof.
  intros Hy Hx.
  rewrite scaleMatrix_up_f64 by assumption.
  destruct (upscale_spec_f64 mat ys xs Hy Hx) as (up & Eu & Su & Iu).
  assert (Su0 : F64.shape0 up = F64.shape0 mat * ys)
    by (unfold F64.shape0 at 1; now rewrite Su).
  assert (Su1 : F64.shape1 up = F64.shape1 mat * xs)
    by (unfold F64.shape1 at 1; now rewrite Su).
  exists up.
  rewrite scaleMatrix_down_f64, downscale_exact_f64 by
    (try assumption; rewrite ?Su0, ?Su1; apply Nat.Div0.mod_mul).
  destruct (block_average_spec_f64 up ys xs Hy Hx) as (back & Eb & Sb & Ib).
  { rewrite Su0. apply Nat.Div0.mod_mul. }
  { rewrite Su1. apply Nat.Div0.mod_mul. }
  exists back. split; [exact Eu|]. split; [exact Eb|].
  split.
  { rewrite Sb, Su0, Su1, !Nat.div_mul by lia. symmetry. apply shape_eta_f64. }
  intros i j Hi Hj. rewrite Ib. f_equal.
  apply block_const_f64. intros yo xo Hyo Hxo.
  rewrite Iu by nia.
  now rewrite !div_block by assumption.
Qed.

(** Average, then replicate, on a grid of uniform blocks: again every cell
    is averaged with itself. *)
Lemma downscale_then_upscale_f64 (mat : F64.ndarray) (ys xs : nat) :
  0 < ys -> 0 < xs ->
  F64.shape0 mat mod ys = 0 -> F64.shape1 mat mod xs = 0 ->
  F64.uniform_blocks mat ys xs ->
  exists down up,
    F64.scaleMatrix mat (ints (- Z.of_nat ys) (- Z.of_nat xs)) true = Ok down /\
    F64.scaleMatrix down (ints (Z.of_nat ys) (Z.of_nat xs)) true = Ok up /\
    F64.shape up = F64.shape mat /\
    forall r c, r < F64.shape0 mat -> c < F64.shape1 mat ->
      F64.item up r c = F64.mean (repeat (F64.item mat r c) (ys * xs)).
Proof.
  intros Hy Hx Hr Hc Hu.
  rewrite scaleMatrix_down_f64, downscale_exact_f64 by assumption.
  destruct (block_average_spec_f64 mat ys xs Hy Hx Hr Hc) as (down & Ed & Sd & Id).
  assert (Sd0 : F64.shape0 down = F64.shape0 mat / ys)
    by (unfold F64.shape0 at 1; now rewrite Sd).
  assert (Sd1 : F64.shape1 down = F64.shape1 mat / xs)
    by (unfold F64.shape1 at 1; now rewrite Sd).
  exists down. rewrite scaleMatrix_up_f64 by assumption.
  destruct (upscale_spec_f64 down ys xs Hy Hx) as (up & Eu & Su & Iu).
  exists up. split; [exact Ed|]. split; [exact Eu|].
  pose proof (Nat.div_mod_eq (F64.shape0 mat) ys) as Er. rewrite Hr in Er.
  pose proof (Nat.div_mod_eq (F64.shape1 mat) xs) as Ec. rewrite Hc in Ec.
  split.
  { rewrite Su, Sd0, Sd1, (shape_eta_f64 mat). f_equal; lia. }
  intros r c Hlr Hlc.
  rewrite Iu by (rewrite ?Sd0, ?Sd1; lia).
  rewrite Id. f_equal.
  apply block_const_f64. intros yo xo Hyo Hxo.
  pose proof (Nat.div_mod_eq r ys) as Dr.
  pose proof (Nat.mod_upper_bound r ys ltac:(lia)) as Br.
  pose proof (Nat.div_mod_eq c xs) as Dc.
  pose proof (Nat.mod_upper_bound c xs ltac:(lia)) as Bc.
  assert (Lr : r / ys < F64.shape0 mat / ys) by nia.
  assert (Lc : c / xs < F64.shape1 mat / xs) by nia.
  rewrite (Hu r c Hlr Hlc), (Hu (r / ys * ys + yo) (c / xs * xs + xo)) by nia.
  now rewrite !div_block by assumption.
Qed.

Lemma array_equal_kept_f64 (a mat : F64.ndarray) (n : nat) :
  F64.shape a = F64.shape mat ->
  (forall i j, i < F64.shape0 mat -> j < F64.shape1 mat ->
     F64.item a i j = F64.mean (repeat (F64.item mat i j) n)) ->
  (F64.array_equal a mat <-> F64.kept_by_mean mat n).
Proof.
  intros Hs Hi.
  assert (H0 : F64.shape0 a = F64.shape0 mat) by (unfold F64.shape0; now rewrite Hs).
  assert (H1 : F64.shape1 a = F64.shape1 mat) by (unfold F64.shape1; now rewrite Hs).
  split.
  - intros [_ Hc] i j Hlt0 Hlt1. rewrite <- Hi by assumption.
    apply Hc; [now rewrite H0 | now rewrite H1].
  - intros Hk. split; [exact Hs|].
    intros i j Hlt0 Hlt1. rewrite H0 in Hlt0. rewrite H1 in Hlt1.
    rewrite Hi by assumption. now apply Hk.
Qed.

(** C8 (amended). For an [m] by [n] grid of doubles and positive factors
    [ys], [xs] dividing [m] and [n], scaling up by [(ys, xs)] and then down
    by [(-ys, -xs)] with [strict=True] succeeds and gives back an [m] by
    [n] grid whose cell [(i, j)] is the binary64 mean of [ys*xs] copies of
    the original cell: [0.0 + v + ... + v], every addition rounded, divided
    by [float(xs*ys)].  The result is equal in value to the original exactly
    when every cell is [==] to that mean of itself.  Scaling down and then
    up does the same on every such grid whose [ys]-by-[xs] blocks are
    uniform. *)
Theorem C8_round_trip_binary64 (mat : F64.ndarray) (ys xs : nat) :
  0 < ys -> 0 < xs ->
  F64.shape0 mat mod ys = 0 -> F64.shape1 mat mod xs = 0 ->
  (exists up back,
     F64.scaleMatrix mat (ints (Z.of_nat ys) (Z.of_nat xs)) true = Ok up /\
     F64.scaleMatrix up (ints (- Z.of_nat ys) (- Z.of_nat xs)) true = Ok back /\
     F64.shape back = F64.shape mat /\
     (forall i j, i < F64.shape0 mat -> j < F64.shape1 mat ->
        F64.item back i j = F64.mean (repeat (F64.item mat i j) (ys * xs))) /\
     (F64.array_equal back mat <-> F64.kept_by_mean mat (ys * xs))) /\
  (F64.uniform_blocks mat ys xs ->
   exists down up,
     F64.scaleMatrix mat (ints (- Z.of_nat ys) (- Z.of_nat xs)) true = Ok down /\
     F64.scaleMatrix down (ints (Z.of_nat ys) (Z.of_nat xs)) true = Ok up /\
     F64.shape up = F64.shape mat /\
     (forall r c, r < F64.shape0 mat -> c < F64.shape1 mat ->
        F64.item up r c = F64.mean (repeat (F64.item mat r c) (ys * xs))) /\
     (F64.array_equal up mat <-> F64.kept_by_mean mat (ys * xs))).
Proof.
  intros Hy Hx Hr Hc. split.
  - destruct (upscale_then_downscale_f64 mat ys xs Hy Hx)
      as (up & back & Eu & Eb & Sb & Ib).
    exists up, back. repeat (split; [assumption|]).
    now apply array_equal_kept_f64.
  - intros Hu.
    destruct (downscale_then_upscale_f64 mat ys xs Hy Hx Hr Hc Hu)
      as (down & up & Ed & Eu & Su & Iu).
    exists down, up. repeat (split; [assumption|]).
    now apply array_equal_kept_f64.
Qed.

Lemma grid_blocks_uniform_f64 : F64.uniform_blocks F64Ex.grid_blocks 2 2.
Proof.
  intros r c Hr Hc. change (F64.shape0 F64Ex.grid_blocks) with 2 in Hr.
  change (F64.shape1 F64Ex.grid_blocks) with 4 in Hc.
  destruct r as [|[|r]]; [| |lia];
    (destruct c as [|[|[|[|c]]]]; [| | | |lia]); reflexivity.
Qed.

Lemma grid_blocks_kept_f64 : F64.kept_by_mean F64Ex.grid_blocks (2 * 2).
Proof.
  intros r c Hr Hc. change (F64.shape0 F64Ex.grid_blocks) with 2 in Hr.
  change (F64.shape1 F64Ex.grid_blocks) with 4 in Hc.
  destruct r as [|[|r]]; [| |lia];
    (destruct c as [|[|[|[|c]]]]; [| | | |lia]); reflexivity.
Qed.

Lemma C8_round_trip_binary64_witness :
  0 < 2 /\
  F64.shape0 F64Ex.grid_blocks mod 2 = 0 /\
  F64.shape1 F64Ex.grid_blocks mod 2 = 0 /\
  F64.uniform_blocks F64Ex.grid_blocks 2 2 /\
  (exists up back,
     F64.scaleMatrix F64Ex.grid_blocks (ints 2 2) true = Ok up /\
     F64.scaleMatrix up (ints (-2) (-2)) true = Ok back /\
     F64.array_equal back F64Ex.grid_blocks) /\
  (exists down up,
     F64.scaleMatrix F64Ex.grid_blocks (ints (-2) (-2)) true = Ok down /\
     F64.scaleMatrix down (ints 2 2) true = Ok up /\
     F64.array_equal up F64Ex.grid_blocks).
Proof.
  assert (P : 0 < 2) by lia.
  assert (D0 : F64.shape0 F64Ex.grid_blocks mod 2 = 0) by reflexivity.
  assert (D1 : F64.shape1 F64Ex.grid_blocks mod 2 = 0) by reflexivity.
  destruct (C8_round_trip_binary64 F64Ex.grid_blocks 2 2 P P D0 D1) as [A B].
  repeat (split; [assumption|]).
  split; [exact grid_blocks_uniform_f64|]. split.
  - destruct A as (up & back & Eu & Eb & _ & _ & K).
    exists up, back. repeat (split; [assumption|]).
    apply K. exact grid_blocks_kept_f64.
  - destruct (B grid_blocks_uniform_f64) as (down & up & Ed & Eu & _ & _ & K).
    exists down, up. repeat (split; [assumption|]).
    apply K. exact grid_blocks_kept_f64.
Defined.

Lemma three_tenths_uniform_f64 : F64.uniform_blocks F64Ex.three_tenths 3 1.
Proof.
  intros r c Hr Hc. change (F64.shape0 F64Ex.three_tenths) with 3 in Hr.
  change (F64.shape1 F64Ex.three_tenths) with 1 in Hc.
  destruct r as [|[|[|r]]]; [| | |lia];
    (destruct c as [|c]; [|lia]); reflexivity.
Qed.

(** C8 as first stated, with a result equal in value to the original,
    fails on three cells of [0.1] and the factors [(3, 1)]: replicated and
    then averaged they come back as [0.10000000000000002], and averaged
    and then replicated likewise. *)
Lemma C8_round_trip_of_three_tenths :
  F64.tolist F64Ex.three_tenths = [[F64.tenth]; [F64.tenth]; [F64.tenth]] /\
  F64.shape0 F64Ex.three_tenths mod 3 = 0 /\
  F64.shape1 F64Ex.three_tenths mod 1 = 0 /\
  F64.uniform_blocks F64Ex.three_tenths 3 1 /\
  (exists up back,
     F64.scaleMatrix F64Ex.three_tenths (ints 3 1) true = Ok up /\
     F64.scaleMatrix up (ints (-3) (-1)) true = Ok back /\
     F64.item back 0 0 = 0x1.999999999999bp-4%float /\
     ~ F64.array_equal back F64Ex.three_tenths) /\
  (exists down up,
     F64.scaleMatrix F64Ex.three_tenths (ints (-3) (-1)) true = Ok down /\
     F64.scaleMatrix down (ints 3 1) true = Ok up /\
     F64.item up 0 0 = 0x1.999999999999bp-4%float /\
     ~ F64.array_equal up F64Ex.three_tenths).
Proof.
  assert (P3 : 0 < 3) by lia.
  assert (P1 : 0 < 1) by lia.
  assert (D0 : F64.shape0 F64Ex.three_tenths mod 3 = 0) by reflexivity.
  assert (D1 : F64.shape1 F64Ex.three_tenths mod 1 = 0) by reflexivity.
  split; [reflexivity|].
  repeat (split; [assumption|]).
  split; [exact three_tenths_uniform_f64|].
  split.
  - destruct (upscale_then_downscale_f64 F64Ex.three_tenths 3 1 P3 P1)
      as (up & back & Eu & Eb & Sb & Ib).
    exists up, back. split; [exact Eu|]. split; [exact Eb|].
    assert (Ho : F64.item back 0 0 = 0x1.999999999999bp-4%float).
    { rewrite Ib; [reflexivity | vm_compute; lia | vm_compute; lia]. }
    split; [exact Ho|].
    intros [_ Hc]. specialize (Hc 0 0).
    unfold F64.shape0, F64.shape1 in Hc. rewrite Sb, Ho in Hc.
    assert (F : false = true) by (apply Hc; vm_compute; lia).
    discriminate F.
  - destruct (downscale_then_upscale_f64 F64Ex.three_tenths 3 1 P3 P1 D0 D1
                three_tenths_uniform_f64)
      as (down & up & Ed & Eu & Su & Iu).
    exists down, up. split; [exact Ed|]. split; [exact Eu|].
    assert (Ho : F64.item up 0 0 = 0x1.999999999999bp-4%float).
    { rewrite Iu; [reflexivity | vm_compute; lia | vm_compute; lia]. }
    split; [exact Ho|].
    intros [_ Hc]. specialize (Hc 0 0).
    unfold F64.shape0, F64.shape1 in Hc. rewrite Su, Ho in Hc.
    assert (F : false = true) by (apply Hc; vm_compute; lia).
    discriminate F.
Qed.
(* ------------------------------------------------------------------ *)
(** ** Pairs with one zero component *)

(** C10. A pair of factors of which exactly one is zero raises the
    same-direction error and scales nothing: it is neither the identity
    (which needs both components zero) nor a one-axis scaling.  On the
    store nothing is allocated. *)
Theorem C10_one_zero_factor (mat : ndarray) (y x : Z) (strict : bool) :
  (y = 0 /\ x <> 0)%Z \/ (y <> 0 /\ x = 0)%Z ->
  scaleMatrix mat (ints y x) strict = Raise MixedDirectionScale /\
  forall (H : Obj.heap) (r : Obj.ref),
    Obj.scaleMatrix r (ints y x) strict H = (Raise MixedDirectionScale, H).
Proof.
  intros Hz. unfold scaleMatrix, Obj.scaleMatrix, ints, unpack.
  assert (E0 : ((x =? 0) && (y =? 0))%Z = false).
  { destruct (Z.eqb_spec x 0), (Z.eqb_spec y 0); simpl; try reflexivity; lia. }
  assert (E1 : ((x >? 0) && (y >? 0))%Z = false).
  { destruct (Z.gtb_spec x 0), (Z.gtb_spec y 0); simpl; try reflexivity; lia. }
  assert (E2 : ((x <? 0) && (y <? 0))%Z = false).
  { destruct (Z.ltb_spec x 0), (Z.ltb_spec y 0); simpl; try reflexivity; lia. }
  rewrite E0, E1, E2. split; [reflexivity|]. intros H r. reflexivity.
Qed.

Lemma C10_one_zero_factor_witness :
  ((0 = 0 /\ 2 <> 0) \/ (0 <> 0 /\ 2 = 0))%Z /\
  scaleMatrix example_grid (ints 0 2) true = Raise MixedDirectionScale /\
  forall (H : Obj.heap) (r : Obj.ref),
    Obj.scaleMatrix r (ints 0 2) true H = (Raise MixedDirectionScale, H).
Proof.
  assert (P : ((0 = 0 /\ 2 <> 0) \/ (0 <> 0 /\ 2 = 0))%Z) by (left; lia).
  split; [exact P|].
  exact (C10_one_zero_factor example_grid 0 2 true P).
Defined.

(* ------------------------------------------------------------------ *)
(** ** The corner cell after padding *)




(* ------------------------------------------------------------------ *)
(** ** The lenient path on grids padded along one axis *)

(** C1. On the 3x4 grid [[1,2,3,4],[5,6,7,8],[9,10,11,12]] scaled by
    [(-2,-2)] with [strict=False], only rows are padded ([yPad = 1],
    [xPad = 0]).  The padded block averages are [[7/2, 11/2],[19/4, 23/4]]
    and the call returns [[7/2, 11],[19/4, 23/2]]: the cell of the last row
    that is not the corner keeps its padded average 19/4 instead of being
    rescaled by [ys/(ys-yPad) = 2], and it is the cell of the last column
    that is rescaled by it, from 11/2 to 11. *)
Theorem C1_edge_slices_swapped :
  pad_amount 2 (shape0 grid_3x4) = 1 /\
  pad_amount 2 (shape1 grid_3x4) = 0 /\
  observe (padded <- zero_pad grid_3x4 1 0 ;; block_average padded 2 2)
    = Some (2, 2, [[7 # 2; 11 # 2]; [19 # 4; 23 # 4]]%Q) /\
  observe (scaleMatrix grid_3x4 (ints (-2) (-2)) false)
    = Some (2, 2, [[7 # 2; 11 # 1]; [19 # 4; 23 # 2]]%Q).
Proof.
  repeat split; vm_compute; reflexivity.
Qed.

(** C2. The lenient path does not always return the mean of the real
    cells of each block.  On the 3x4 grid above the real means are
    [[7/2, 11/2],[19/2, 23/2]] and the call returns
    [[7/2, 11],[19/4, 23/2]]; on the 2x3 grid [[1,2,3],[4,5,6]], where
    only columns are padded, the real means are [[3, 9/2]] and the call
    returns [[6, 9/4]]. *)
Theorem C2_lenient_not_mean_of_real_cells :
  (map (fun i => map (fun j => this (mean (real_block grid_3x4 2 2 i j))) [0; 1])
       [0; 1]
   = [[7 # 2; 11 # 2]; [19 # 2; 23 # 2]]%Q /\
   observe (scaleMatrix grid_3x4 (ints (-2) (-2)) false)
   = Some (2, 2, [[7 # 2; 11 # 1]; [19 # 4; 23 # 2]]%Q)) /\
  (map (fun i => map (fun j => this (mean (real_block grid_2x3 2 2 i j))) [0; 1])
       [0]
   = [[3 # 1; 9 # 2]]%Q /\
   observe (scaleMatrix grid_2x3 (ints (-2) (-2)) false)
   = Some (1, 2, [[6 # 1; 9 # 4]]%Q)).
Proof.
  repeat split; vm_compute; reflexivity.
Qed.

(* ------------------------------------------------------------------ *)
(** ** The rejection of factors that do not divide the dimensions *)

Lemma scaleMatrix_unpack mat scale strict y x :
  unpack scale = (PyInt y, PyInt x) ->
  scaleMatrix mat scale strict = scaleMatrix mat (ints y x) strict.
Proof. intros E. unfold scaleMatrix. rewrite E. reflexivity. Qed.

Lemma Obj_scaleMatrix_unpack r scale strict y x :
  unpack scale = (PyInt y, PyInt x) ->
  Obj.scaleMatrix r scale strict = Obj.scaleMatrix r (ints y x) strict.
Proof. intros E. unfold Obj.scaleMatrix. rewrite E. reflexivity. Qed.

Lemma Obj_scaleMatrix_down r ys xs strict :
  0 < ys -> 0 < xs ->
  Obj.scaleMatrix r (ints (- Z.of_nat ys) (- Z.of_nat xs)) strict
  = Obj.downscale r ys xs strict.
Proof.
  intros Hy Hx. unfold Obj.scaleMatrix, ints, unpack.
  destruct (Z.eqb_spec (- Z.of_nat xs) 0); [lia|].
  destruct (Z.gtb_spec (- Z.of_nat xs) 0); [lia|].
  destruct (Z.ltb_spec (- Z.of_nat xs) 0); [|lia].
  destruct (Z.ltb_spec (- Z.of_nat ys) 0); [|lia].
  cbn [andb].
  replace (-1 * - Z.of_nat ys)%Z with (Z.of_nat ys) by lia.
  replace (-1 * - Z.of_nat xs)%Z with (Z.of_nat xs) by lia.
  now rewrite !Nat2Z.id.
Qed.

Lemma divisible_dec mat ys xs :
  (shape0 mat mod ys = 0 /\ shape1 mat mod xs = 0 /\
   (shape0 mat mod ys =? 0) && (shape1 mat mod xs =? 0) = true) \/
  ((shape0 mat mod ys <> 0 \/ shape1 mat mod xs <> 0) /\
   (shape0 mat mod ys =? 0) && (shape1 mat mod xs =? 0) = false).
Proof.
  destruct (Nat.eqb_spec (shape0 mat mod ys) 0);
    destruct (Nat.eqb_spec (shape1 mat mod xs) 0); cbn [andb]; tauto.
Qed.

Lemma downscale_strict_raises mat ys xs :
  0 < ys -> 0 < xs ->
  (downscale mat ys xs true = Raise NonDivisibleScale <->
   shape0 mat mod ys <> 0 \/ shape1 mat mod xs <> 0).
Proof.
  intros Hy Hx.
  destruct (divisible_dec mat ys xs) as [(Hr & Hc & E)|(Hn & E)].
  - rewrite downscale_exact by assumption.
    destruct (block_average_spec mat ys xs Hy Hx Hr Hc) as (out & Eo & _).
    rewrite Eo. split; [discriminate | lia].
  - unfold downscale. rewrite E. cbn [negb bind]. tauto.
Qed.

Lemma Obj_downscale_strict_rejects (H : Obj.heap) (r : Obj.ref) ys xs :
  shape0 (Obj.deref H r) mod ys <> 0 \/ shape1 (Obj.deref H r) mod xs <> 0 ->
  Obj.downscale r ys xs true H = (Raise NonDivisibleScale, H).
Proof.
  intros Hn.
  destruct (divisible_dec (Obj.deref H r) ys xs) as [(Hr & Hc & E)|(_ & E)]; [lia|].
  unfold shape0, shape1 in E.
  unfold Obj.downscale. ObjSpec.obj_run. rewrite E. reflexivity.
Qed.

Lemma not_divisible_cases mat scale strict :
  scaleMatrix mat scale strict = Raise NonDivisibleScale <->
  exists ys xs, 0 < ys /\ 0 < xs /\
    unpack scale = (PyInt (- Z.of_nat ys), PyInt (- Z.of_nat xs)) /\
    strict = true /\
    (shape0 mat mod ys <> 0 \/ shape1 mat mod xs <> 0).
Proof.
  split.
  - destruct (unpack scale) as [[y|] [x|]] eqn:Eu;
      try (unfold scaleMatrix; rewrite Eu; discriminate).
    rewrite (scaleMatrix_unpack mat scale strict y x Eu).
    destruct (scaleMatrix_cases mat y x strict)
      as [(_ & _ & E)|[(ys & xs & Hy & Hx & _ & _ & E)
         |[(ys & xs & Hy & Hx & -> & -> & E)|(_ & _ & _ & E)]]];
      rewrite E; try discriminate.
    + destruct (upscale_spec mat ys xs Hy Hx) as (out & Eo & _).
      rewrite Eo. discriminate.
    + destruct strict.
      * intros Hd. apply downscale_strict_raises in Hd; try assumption.
        exists ys, xs. repeat split; assumption.
      * intros Hd. apply downscale_lenient_raises in Hd; try assumption.
        discriminate.
  - intros (ys & xs & Hy & Hx & Eu & -> & Hn).
    rewrite (scaleMatrix_unpack mat scale true _ _ Eu).
    rewrite scaleMatrix_down by assumption.
    now apply downscale_strict_raises.
Qed.

(** C7. The error for a factor that does not divide a dimension is raised
    exactly when both factors are negative integers [-ys], [-xs],
    [strict] is set, and [rows % ys != 0] or [cols % xs != 0]; so it is on
    every 4x4 grid scaled by [(-3,-3)] with [strict=True]; and when it is
    raised no array has been allocated. *)
Theorem C7_non_divisible_iff (mat : ndarray) (scale : scale_arg) (strict : bool) :
  (scaleMatrix mat scale strict = Raise NonDivisibleScale <->
   exists ys xs, 0 < ys /\ 0 < xs /\
     unpack scale = (PyInt (- Z.of_nat ys), PyInt (- Z.of_nat xs)) /\
     strict = true /\
     (shape0 mat mod ys <> 0 \/ shape1 mat mod xs <> 0)) /\
  (forall grid, shape grid = (4, 4) ->
     scaleMatrix grid (ints (-3) (-3)) true = Raise NonDivisibleScale) /\
  (forall (H H' : Obj.heap) (r : Obj.ref),
     r < length H -> Obj.deref H r = mat ->
     Obj.scaleMatrix r scale strict H = (Raise NonDivisibleScale, H') ->
     H' = H).
Proof.
  split; [apply not_divisible_cases|]. split.
  - intros grid Hs. apply not_divisible_cases.
    exists 3, 3. unfold shape0, shape1. rewrite Hs.
    repeat split; try lia. left. simpl. lia.
  - intros H H' r Hr Hm Hrun.
    destruct (ObjFacts.scaleMatrix_refines false H r scale strict Hr)
      as (t & _ & Hres); [discriminate|].
    rewrite Hrun, Hm in Hres. cbn [fst] in Hres.
    destruct (scaleMatrix mat scale strict) as [o|e] eqn:Ep.
    + destruct Hres as (out & Hout & _). discriminate.
    + injection Hres as <-.
      apply not_divisible_cases in Ep.
      destruct Ep as (ys & xs & Hy & Hx & Eu & -> & Hn).
      rewrite (Obj_scaleMatrix_unpack r scale true _ _ Eu) in Hrun.
      rewrite Obj_scaleMatrix_down in Hrun by assumption.
      rewrite Obj_downscale_strict_rejects in Hrun by (now rewrite Hm).
      now injection Hrun.
Qed.

Lemma C7_non_divisible_iff_witness :
  shape example_grid = (4, 4) /\
  scaleMatrix example_grid (ints (-3) (-3)) true = Raise NonDivisibleScale.
Proof.
  assert (P : shape example_grid = (4, 4)) by reflexivity.
  split; [exact P|].
  exact (proj1 (proj2 (C7_non_divisible_iff example_grid (ints (-3) (-3)) true))
               example_grid P).
Defined.

(* ------------------------------------------------------------------ *)
(** ** What a call does to the store *)

Lemma identity_dec (scale : scale_arg) :
  unpack scale = (PyInt 0, PyInt 0) \/ unpack scale <> (PyInt 0, PyInt 0).
Proof.
  destruct (unpack scale) as [[y|] [x|]]; try (right; discriminate).
  destruct (Z.eq_dec y 0) as [->|Hy]; [|right; congruence].
  destruct (Z.eq_dec x 0) as [->|Hx]; [now left | right; congruence].
Qed.

(** C9 does not hold on the identity path: with both factors zero the
    reference returned is the reference passed in, not a new one. *)
Lemma C9_identity_returns_its_argument :
  let H := [example_grid] in
  let mat := 0 in
  exists out H',
    Obj.scaleMatrix mat (ints 0 0) true H = (Ok out, H') /\
    out = mat /\ ~ (length H <= out).
Proof.
  exists 0, [example_grid]. split; [reflexivity|]. split; [reflexivity|].
  simpl. lia.
Qed.

(** C9, amended.  A call never changes an array that existed before it,
    whether it returns or raises.  A call that returns with factors other
    than [(0,0)] returns a reference to a newly allocated array, distinct
    from the input; with factors [(0,0)] it returns the input reference
    itself and allocates nothing. *)
Theorem C9_input_kept_result_fresh_unless_identity
        (H : Obj.heap) (mat : Obj.ref) (scale : scale_arg) (strict : bool) :
  mat < length H ->
  let run := Obj.scaleMatrix mat scale strict H in
  (forall q, q < length H -> Obj.deref (snd run) q = Obj.deref H q) /\
  (forall out, fst run = Ok out ->
     (unpack scale = (PyInt 0, PyInt 0) /\ out = mat /\ snd run = H) \/
     (unpack scale <> (PyInt 0, PyInt 0) /\
      length H <= out /\ out < length (snd run) /\ out <> mat)).
Proof.
  intros Hm run.
  destruct (identity_dec scale) as [Ei|Ei].
  - assert (Er : run = (Ok mat, H)).
    { unfold run, Obj.scaleMatrix. rewrite Ei. reflexivity. }
    rewrite Er. cbn [fst snd]. split; [reflexivity|].
    intros out E. injection E as <-. left. repeat split. exact Ei.
  - destruct (ObjFacts.scaleMatrix_refines true H mat scale strict Hm)
      as (t & Ht & Hres); [intros _; exact Ei|].
    fold run in Ht, Hres. rewrite Ht. split.
    + intros q Hq. now apply ObjFacts.deref_old.
    + intros out E. right. split; [exact Ei|].
      destruct (scaleMatrix (Obj.deref H mat) scale strict) as [o|e].
      * destruct Hres as (out' & E' & Hl & _ & Hf).
        rewrite E in E'. injection E' as <-.
        specialize (Hf eq_refl). repeat split; try assumption. lia.
      * rewrite E in Hres. discriminate.
Qed.

Lemma C9_input_kept_result_fresh_unless_identity_witness :
  0 < length [grid_2x2] /\
  Obj.deref (snd (Obj.scaleMatrix 0 (ints 2 2) true [grid_2x2])) 0
    = Obj.deref [grid_2x2] 0 /\
  fst (Obj.scaleMatrix 0 (ints 2 2) true [grid_2x2]) = Ok 1 /\
  ((unpack (ints 2 2) = (PyInt 0, PyInt 0) /\ 1 = 0 /\
    snd (Obj.scaleMatrix 0 (ints 2 2) true [grid_2x2]) = [grid_2x2]) \/
   (unpack (ints 2 2) <> (PyInt 0, PyInt 0) /\
    length [grid_2x2] <= 1 /\
    1 < length (snd (Obj.scaleMatrix 0 (ints 2 2) true [grid_2x2])) /\
    1 <> 0)).
Proof.
  assert (P : 0 < length [grid_2x2]) by (simpl; lia).
  assert (Q : fst (Obj.scaleMatrix 0 (ints 2 2) true [grid_2x2]) = Ok 1)
    by (vm_compute; reflexivity).
  destruct (C9_input_kept_result_fresh_unless_identity
              [grid_2x2] 0 (ints 2 2) true P) as [A B].
  split; [exact P|]. split; [exact (A 0 P)|]. split; [exact Q|].
  exact (B 1 Q).
Defined.

(* ================================================================== *)
(** * Further properties of the code *)

(* ------------------------------------------------------------------ *)
(** ** Which exception, and when *)

Lemma downscale_raises mat ys xs strict e :
  0 < ys -> 0 < xs ->
  downscale mat ys xs strict = Raise e ->
  e = NonDivisibleScale \/
  (strict = false /\
   e = IndexError "index -1 is out of bounds for axis with size 0").
Proof.
  intros Hy Hx Hd. destruct strict.
  - left. destruct (divisible_dec mat ys xs) as [(Hr & Hc & E)|(Hn & E)].
    + rewrite downscale_exact in Hd by assumption.
      destruct (block_average_spec mat ys xs Hy Hx Hr Hc) as (out & Eo & _).
      rewrite Eo in Hd. discriminate.
    + apply (downscale_strict_raises mat ys xs Hy Hx) in Hn. congruence.
  - right. split; [reflexivity|]. now apply (downscale_lenient_raises mat ys xs).
Qed.

(** X1. The exception of line 212 is raised exactly by integer factors
    that are neither both zero, nor both positive, nor both negative. *)
Theorem mixed_direction_iff (mat : ndarray) (scale : scale_arg) (strict : bool) :
  scaleMatrix mat scale strict = Raise MixedDirectionScale <->
  exists y x : Z,
    unpack scale = (PyInt y, PyInt x) /\
    ~ (x = 0 /\ y = 0)%Z /\ ~ (0 < x /\ 0 < y)%Z /\ ~ (x < 0 /\ y < 0)%Z.
Proof.
  split.
  - destruct (unpack scale) as [[y|] [x|]] eqn:Eu;
      try (unfold scaleMatrix; rewrite Eu; discriminate).
    rewrite (scaleMatrix_unpack mat scale strict y x Eu).
    destruct (scaleMatrix_cases mat y x strict)
      as [(_ & _ & E)|[(ys & xs & Hy & Hx & _ & _ & E)
         |[(ys & xs & Hy & Hx & _ & _ & E)|(H1 & H2 & H3 & E)]]];
      rewrite E; try discriminate.
    + destruct (upscale_spec mat ys xs Hy Hx) as (out & Eo & _).
      rewrite Eo. discriminate.
    + intros Hd. apply downscale_raises in Hd; try assumption.
      destruct Hd as [Hd|[_ Hd]]; discriminate.
    + intros _. exists y, x. split; [reflexivity|]. lia.
  - intros (y & x & Eu & H0 & H1 & H2).
    rewrite (scaleMatrix_unpack mat scale strict y x Eu).
    destruct (scaleMatrix_cases mat y x strict)
      as [(? & ? & E)|[(ys & xs & Hy & Hx & ? & ? & E)
         |[(ys & xs & Hy & Hx & ? & ? & E)|(_ & _ & _ & E)]]];
      try lia. exact E.
Qed.

(** X2. The exception of line 171 is raised exactly when a component of
    the scale is not an [int]. *)
Theorem invalid_scale_type_iff (mat : ndarray) (scale : scale_arg) (strict : bool) :
  scaleMatrix mat scale strict = Raise InvalidScaleType <->
  fst (unpack scale) = PyNotInt \/ snd (unpack scale) = PyNotInt.
Proof.
  split.
  - destruct (unpack scale) as [[y|] [x|]] eqn:Eu; cbn [fst snd]; try tauto.
    rewrite (scaleMatrix_unpack mat scale strict y x Eu).
    destruct (scaleMatrix_cases mat y x strict)
      as [(_ & _ & E)|[(ys & xs & Hy & Hx & _ & _ & E)
         |[(ys & xs & Hy & Hx & _ & _ & E)|(_ & _ & _ & E)]]];
      rewrite E; try discriminate.
    + destruct (upscale_spec mat ys xs Hy Hx) as (out & Eo & _).
      rewrite Eo. discriminate.
    + intros Hd. apply downscale_raises in Hd; try assumption.
      destruct Hd as [Hd|[_ Hd]]; discriminate.
  - unfold scaleMatrix.
    destruct (unpack scale) as [[y|] [x|]]; cbn [fst snd];
      intros [H|H]; try discriminate; reflexivity.
Qed.

Lemma mixed_direction_iff_witness :
  (exists y x : Z,
     unpack (ints 2 (-2)) = (PyInt y, PyInt x) /\
     ~ (x = 0 /\ y = 0)%Z /\ ~ (0 < x /\ 0 < y)%Z /\ ~ (x < 0 /\ y < 0)%Z) /\
  scaleMatrix example_grid (ints 2 (-2)) true = Raise MixedDirectionScale.
Proof.
  assert (P : exists y x : Z,
     unpack (ints 2 (-2)) = (PyInt y, PyInt x) /\
     ~ (x = 0 /\ y = 0)%Z /\ ~ (0 < x /\ 0 < y)%Z /\ ~ (x < 0 /\ y < 0)%Z).
  { exists 2%Z, (-2)%Z. split; [reflexivity|]. lia. }
  split; [exact P|].
  exact (proj2 (mixed_direction_iff example_grid (ints 2 (-2)) true) P).
Defined.

Lemma invalid_scale_type_iff_witness :
  (fst (unpack (Pair (PyInt 2) PyNotInt)) = PyNotInt \/
   snd (unpack (Pair (PyInt 2) PyNotInt)) = PyNotInt) /\
  scaleMatrix example_grid (Pair (PyInt 2) PyNotInt) true = Raise InvalidScaleType.
Proof.
  assert (P : fst (unpack (Pair (PyInt 2) PyNotInt)) = PyNotInt \/
              snd (unpack (Pair (PyInt 2) PyNotInt)) = PyNotInt)
    by (right; reflexivity).
  split; [exact P|].
  exact (proj2 (invalid_scale_type_iff example_grid (Pair (PyInt 2) PyNotInt) true) P).
Defined.

(* ------------------------------------------------------------------ *)
(** ** The lenient path, cell by cell *)

Lemma ceil_div_pad n s :
  0 < s -> (n + pad_amount s n) / s = ceil_div n s.
Proof.
  intros Hs. unfold ceil_div, pad_amount.
  pose proof (Nat.div_mod_eq n s) as E.
  pose proof (Nat.mod_upper_bound n s ltac:(lia)) as B.
  destruct (Nat.eqb_spec (s - n mod s) s) as [H0|H0].
  - rewrite Nat.add_0_r.
    apply (Nat.div_unique (n + (s - 1)) s (n / s) (s - 1)); lia.
  - assert (E1 : n + (s - n mod s) = (n / s + 1) * s) by lia.
    rewrite E1, Nat.div_mul by lia.
    apply (Nat.div_unique (n + (s - 1)) s (n / s + 1) (n mod s - 1)); lia.
Qed.

Lemma padded_rows n s :
  0 < s -> ceil_div n s * s = n + pad_amount s n.
Proof.
  intros Hs. rewrite <- ceil_div_pad by assumption.
  pose proof (pad_amount_divisible s n Hs) as Hm.
  pose proof (Nat.div_mod_eq (n + pad_amount s n) s) as E. lia.
Qed.

Lemma ceil_div_pos n s : 0 < s -> 0 < n -> 0 < ceil_div n s.
Proof.
  intros Hs Hn. pose proof (padded_rows n s Hs).
  destruct (ceil_div n s); lia.
Qed.

Lemma correct_edges_spec out ys xs yPad xPad :
  0 < shape0 out -> 0 < shape1 out ->
  exists out',
    correct_edges out ys xs yPad xPad = Ok out' /\
    shape out' = shape out /\
    forall i j,
      item out' i j =
      (item out i j
       * edge_factor ys xs yPad xPad (shape0 out) (shape1 out) i j)%Qc.
Proof.
  intros H0 H1. unfold correct_edges.
  destruct (imul_if_spec (0 <? yPad) out np.upto_last np.last
              (of_nat ys / of_nat (ys - yPad))%Qc H0 H1) as (o1 & E1 & S1 & I1).
  rewrite E1. cbn [bind].
  assert (S1' : shape0 o1 = shape0 out /\ shape1 o1 = shape1 out)
    by (unfold shape0, shape1; now rewrite S1).
  destruct S1' as [S10 S11].
  destruct (imul_if_spec (0 <? xPad) o1 np.last np.upto_last
              (of_nat xs / of_nat (xs - xPad))%Qc) as (o2 & E2 & S2 & I2);
    [lia | lia |].
  rewrite E2. cbn [bind].
  assert (S2' : shape0 o2 = shape0 out /\ shape1 o2 = shape1 out)
    by (unfold shape0, shape1; now rewrite S2, S1).
  destruct S2' as [S20 S21].
  destruct (imul_if_spec (0 <? yPad) o2 np.last np.last
              (of_nat (ys * xs) / of_nat (ys - yPad) / of_nat (xs - xPad))%Qc)
    as (o3 & E3 & S3 & I3); [lia | lia |].
  rewrite E3. cbn [bind].
  exists o3. split; [reflexivity|]. split; [congruence|].
  intros i j. rewrite I3, I2, I1, S20, S21, S10, S11.
  unfold edge_factor. cbn [np.selects].
  destruct (0 <? yPad), (0 <? xPad); cbn [andb];
    destruct (i <? shape0 out - 1) eqn:Ei1, (i =? shape0 out - 1) eqn:Ei2,
             (j <? shape1 out - 1) eqn:Ej1, (j =? shape1 out - 1) eqn:Ej2;
    cbn [andb]; try ring;
    try apply Nat.ltb_lt in Ei1; try apply Nat.ltb_lt in Ej1;
    try apply Nat.eqb_eq in Ei2; try apply Nat.eqb_eq in Ej2; lia.
Qed.

Lemma total_flat_map_ext {A} (f g : A -> list Qc) (l : list A) :
  (forall a, In a l -> total (f a) = total (g a)) ->
  total (flat_map f l) = total (flat_map g l).
Proof.
  induction l as [|a l IH]; intros H; simpl; [reflexivity|].
  rewrite !total_app, (H a) by now left.
  rewrite IH; [reflexivity|]. intros b Hb. apply H. now right.
Qed.

Lemma total_map_flat_map {A} (h : A -> Qc) (k : A -> list Qc) (l : list A) :
  (forall a, In a l -> h a = total (k a)) ->
  total (map h l) = total (flat_map k l).
Proof.
  induction l as [|a l IH]; intros H; simpl; [reflexivity|].
  rewrite total_app, (H a) by now left.
  rewrite IH; [reflexivity|]. intros b Hb. apply H. now right.
Qed.

(** The zeros of the padding add nothing to the sum of a block. *)
Lemma padded_block_total mat p ys xs yPad xPad i j :
  shape p = (shape0 mat + yPad, shape1 mat + xPad) ->
  (forall r c, r < shape0 mat + yPad -> c < shape1 mat + xPad ->
     item p r c =
     if (r <? shape0 mat) && (c <? shape1 mat) then item mat r c else 0%Qc) ->
  (i + 1) * ys <= shape0 mat + yPad ->
  (j + 1) * xs <= shape1 mat + xPad ->
  total (block p ys xs i j) = total (real_block mat ys xs i j).
Proof.
  intros Sp Ip Hi Hj. unfold block, real_block, range.
  apply total_flat_map_ext. intros yo Hyo. apply in_seq in Hyo.
  apply total_map_flat_map. intros xo Hxo. apply in_seq in Hxo.
  rewrite Ip by nia.
  destruct ((i * ys + yo <? shape0 mat) && (j * xs + xo <? shape1 mat));
    simpl; ring.
Qed.

Lemma lenient_cells mat ys xs :
  0 < ys -> 0 < xs -> 1 <= shape0 mat -> 1 <= shape1 mat ->
  exists out,
    scaleMatrix mat (ints (- Z.of_nat ys) (- Z.of_nat xs)) false = Ok out /\
    shape out = (ceil_div (shape0 mat) ys, ceil_div (shape1 mat) xs) /\
    forall i j, i < ceil_div (shape0 mat) ys -> j < ceil_div (shape1 mat) xs ->
      item out i j =
      (total (real_block mat ys xs i j) / of_nat (ys * xs)
       * edge_factor ys xs (pad_amount ys (shape0 mat)) (pad_amount xs (shape1 mat))
           (ceil_div (shape0 mat) ys) (ceil_div (shape1 mat) xs) i j)%Qc.
Proof.
  intros Hy Hx Hr Hc.
  set (yPad := pad_amount ys (shape0 mat)).
  set (xPad := pad_amount xs (shape1 mat)).
  set (n := ceil_div (shape0 mat) ys).
  set (m := ceil_div (shape1 mat) xs).
  destruct (zero_pad_spec mat yPad xPad) as (p & Ep & Sp & Ip).
  destruct (downscale_lenient_stages mat ys xs Hy Hx)
    as (p' & raw & Ep' & _ & Er & Sr & Ir & Ed).
  fold yPad xPad in Ep', Ed. rewrite Ep in Ep'. injection Ep' as <-.
  assert (Sp0 : shape0 p = shape0 mat + yPad) by (unfold shape0 at 1; now rewrite Sp).
  assert (Sp1 : shape1 p = shape1 mat + xPad) by (unfold shape1 at 1; now rewrite Sp).
  assert (Sr0 : shape0 raw = n).
  { unfold shape0 at 1. rewrite Sr. cbn [fst]. rewrite Sp0. now apply ceil_div_pad. }
  assert (Sr1 : shape1 raw = m).
  { unfold shape1 at 1. rewrite Sr. cbn [snd]. rewrite Sp1. now apply ceil_div_pad. }
  destruct (correct_edges_spec raw ys xs yPad xPad) as (out & Eo & So & Io).
  { rewrite Sr0. apply ceil_div_pos; lia. }
  { rewrite Sr1. apply ceil_div_pos; lia. }
  exists out. split; [rewrite scaleMatrix_down by assumption; now rewrite Ed|].
  split; [rewrite So, (shape_eta raw), Sr0, Sr1; reflexivity|].
  intros i j Hi Hj. rewrite Io, Ir, Sr0, Sr1. f_equal.
  unfold mean. rewrite block_length.
  rewrite (padded_block_total mat p ys xs yPad xPad i j Sp Ip); [reflexivity | |].
  - pose proof (padded_rows (shape0 mat) ys Hy). fold n yPad in H. nia.
  - pose proof (padded_rows (shape1 mat) xs Hx). fold m xPad in H. nia.
Qed.

(** X4. With [strict=False], negative integer factors and a grid of at
    least one row and one column, the call returns, and the result has
    [ceil(rows/ys)] by [ceil(cols/xs)] cells. *)
Theorem lenient_succeeds_ceil_shape (mat : ndarray) (ys xs : nat) :
  0 < ys -> 0 < xs -> 1 <= shape0 mat -> 1 <= shape1 mat ->
  exists out,
    scaleMatrix mat (ints (- Z.of_nat ys) (- Z.of_nat xs)) false = Ok out /\
    shape out = (ceil_div (shape0 mat) ys, ceil_div (shape1 mat) xs).
Proof.
  intros Hy Hx Hr Hc.
  destruct (lenient_cells mat ys xs Hy Hx Hr Hc) as (out & E & S & _).
  exists out. split; assumption.
Qed.

Lemma lenient_succeeds_ceil_shape_witness :
  0 < 3 /\ 1 <= shape0 example_grid /\ 1 <= shape1 example_grid /\
  exists out,
    scaleMatrix example_grid (ints (-3) (-3)) false = Ok out /\
    shape out = (ceil_div (shape0 example_grid) 3, ceil_div (shape1 example_grid) 3).
Proof.
  assert (P : 0 < 3) by lia.
  assert (Q0 : 1 <= shape0 example_grid) by (vm_compute; lia).
  assert (Q1 : 1 <= shape1 example_grid) by (vm_compute; lia).
  repeat (split; [assumption|]).
  exact (lenient_succeeds_ceil_shape example_grid 3 3 P P Q0 Q1).
Defined.


(* ------------------------------------------------------------------ *)
(** ** Arrays of doubles: the lenient path *)

Lemma zero_pad_spec_f64 mat yPad xPad :
  exists p,
    F64.zero_pad mat yPad xPad = Ok p /\
    F64.shape p = (F64.shape0 mat + yPad, F64.shape1 mat + xPad) /\
    forall i j, i < F64.shape0 mat + yPad -> j < F64.shape1 mat + xPad ->
      F64.item p i j = F64.item (F64.padded mat yPad xPad) i j.
Proof.
  unfold F64.zero_pad, F64.padded.
  destruct (Nat.ltb_spec 0 yPad) as [Hy|Hy];
    destruct (Nat.ltb_spec 0 xPad) as [Hx|Hx];
    unfold F64.np.concatenate, F64.np.zeros, F64.shape0, F64.shape1;
    cbn [F64.shape F64.item fst snd bind]; rewrite ?Nat.eqb_refl;
    cbn [bind F64.shape fst snd]; rewrite ?Nat.eqb_refl;
    (eexists; split; [reflexivity|]; split).
  all: cbn [F64.shape F64.item].
  all: try (destruct (F64.shape mat) as [R C]; cbn [fst snd]; f_equal; lia).
  all: intros i j Hi Hj;
    destruct (Nat.ltb_spec i (fst (F64.shape mat)));
    destruct (Nat.ltb_spec j (snd (F64.shape mat))); cbn [andb]; try reflexivity; lia.
Qed.

Lemma block_ext_f64 (a b : F64.ndarray) ys xs i j :
  (forall yo xo, yo < ys -> xo < xs ->
     F64.item a (i * ys + yo) (j * xs + xo) = F64.item b (i * ys + yo) (j * xs + xo)) ->
  F64.block a ys xs i j = F64.block b ys xs i j.
Proof.
  intros H. unfold F64.block, range.
  apply flat_map_ext_on. intros yo Hyo. apply in_seq in Hyo.
  apply map_ext_in. intros xo Hxo. apply in_seq in Hxo. apply H; lia.
Qed.

Lemma imul_if_spec_f64 (b : bool) a iy ix k :
  0 < F64.shape0 a -> 0 < F64.shape1 a ->
  exists a',
    (if b then F64.np.imul a iy ix k else Ok a) = Ok a' /\
    F64.shape a' = F64.shape a /\
    forall i j,
      F64.item a' i j =
      if b && (np.selects (F64.shape0 a) iy i && np.selects (F64.shape1 a) ix j)
      then (F64.item a i j * k)%float
      else F64.item a i j.
Proof.
  intros H0 H1. destruct b.
  - unfold F64.np.imul.
    assert (E : np.index_ok (F64.shape0 a) iy && np.index_ok (F64.shape1 a) ix = true).
    { apply Nat.ltb_lt in H0, H1. destruct iy, ix; simpl; now rewrite ?H0, ?H1. }
    rewrite E. eexists. split; [reflexivity|]. split; reflexivity.
  - exists a. repeat split.
Qed.

Lemma correct_edges_spec_f64 out ys xs yPad xPad :
  0 < F64.shape0 out -> 0 < F64.shape1 out ->
  exists out',
    F64.correct_edges out ys xs yPad xPad = Ok out' /\
    F64.shape out' = F64.shape out /\
    forall i j,
      F64.item out' i j =
      F64.edge_corrected ys xs yPad xPad (F64.shape0 out) (F64.shape1 out) i j
        (F64.item out i j).
Proof.
  intros H0 H1. unfold F64.correct_edges.
  destruct (imul_if_spec_f64 (0 <? yPad) out np.upto_last np.last
              (F64.of_nat ys / F64.of_nat (ys - yPad))%float H0 H1)
    as (o1 & E1 & S1 & I1).
  rewrite E1. cbn [bind].
  assert (S1' : F64.shape0 o1 = F64.shape0 out /\ F64.shape1 o1 = F64.shape1 out)
    by (unfold F64.shape0, F64.shape1; now rewrite S1).
  destruct S1' as [S10 S11].
  destruct (imul_if_spec_f64 (0 <? xPad) o1 np.last np.upto_last
              (F64.of_nat xs / F64.of_nat (xs - xPad))%float)
    as (o2 & E2 & S2 & I2); [lia | lia |].
  rewrite E2. cbn [bind].
  assert (S2' : F64.shape0 o2 = F64.shape0 out /\ F64.shape1 o2 = F64.shape1 out)
    by (unfold F64.shape0, F64.shape1; now rewrite S2, S1).
  destruct S2' as [S20 S21].
  destruct (imul_if_spec_f64 (0 <? yPad) o2 np.last np.last
              (F64.of_nat (ys * xs) / F64.of_nat (ys - yPad)
               / F64.of_nat (xs - xPad))%float)
    as (o3 & E3 & S3 & I3); [lia | lia |].
  rewrite E3. cbn [bind].
  exists o3. split; [reflexivity|]. split; [congruence|].
  intros i j. rewrite I3, I2, I1, S20, S21, S10, S11.
  unfold F64.edge_corrected. cbn [np.selects].
  destruct (0 <? yPad), (0 <? xPad); cbn [andb];
    destruct (i <? F64.shape0 out - 1) eqn:Ei1, (i =? F64.shape0 out - 1) eqn:Ei2,
             (j <? F64.shape1 out - 1) eqn:Ej1, (j =? F64.shape1 out - 1) eqn:Ej2;
    cbn [andb]; try reflexivity;
    try apply Nat.ltb_lt in Ei1; try apply Nat.ltb_lt in Ej1;
    try apply Nat.eqb_eq in Ei2; try apply Nat.eqb_eq in Ej2; lia.
Qed.

Lemma lenient_cells_f64 mat ys xs :
  0 < ys -> 0 < xs -> 1 <= F64.shape0 mat -> 1 <= F64.shape1 mat ->
  exists out,
    F64.scaleMatrix mat (ints (- Z.of_nat ys) (- Z.of_nat xs)) false = Ok out /\
    F64.shape out = (ceil_div (F64.shape0 mat) ys, ceil_div (F64.shape1 mat) xs) /\
    forall i j,
      i < ceil_div (F64.shape0 mat) ys -> j < ceil_div (F64.shape1 mat) xs ->
      F64.item out i j =
      F64.edge_corrected ys xs
        (pad_amount ys (F64.shape0 mat)) (pad_amount xs (F64.shape1 mat))
        (ceil_div (F64.shape0 mat) ys) (ceil_div (F64.shape1 mat) xs) i j
        (F64.mean (F64.block (F64.padded mat (pad_amount ys (F64.shape0 mat))
                                             (pad_amount xs (F64.shape1 mat)))
                             ys xs i j)).
Proof.
  intros Hy Hx Hr Hc.
  set (yPad := pad_amount ys (F64.shape0 mat)).
  set (xPad := pad_amount xs (F64.shape1 mat)).
  set (n := ceil_div (F64.shape0 mat) ys).
  set (m := ceil_div (F64.shape1 mat) xs).
  destruct (zero_pad_spec_f64 mat yPad xPad) as (p & Ep & Sp & Ip).
  assert (Sp0 : F64.shape0 p = F64.shape0 mat + yPad)
    by (unfold F64.shape0 at 1; now rewrite Sp).
  assert (Sp1 : F64.shape1 p = F64.shape1 mat + xPad)
    by (unfold F64.shape1 at 1; now rewrite Sp).
  destruct (block_average_spec_f64 p ys xs Hy Hx) as (raw & Er & Sr & Ir).
  { rewrite Sp0. now apply pad_amount_divisible. }
  { rewrite Sp1. now apply pad_amount_divisible. }
  assert (Sr0 : F64.shape0 raw = n).
  { unfold F64.shape0 at 1. rewrite Sr. cbn [fst]. rewrite Sp0. now apply ceil_div_pad. }
  assert (Sr1 : F64.shape1 raw = m).
  { unfold F64.shape1 at 1. rewrite Sr. cbn [snd]. rewrite Sp1. now apply ceil_div_pad. }
  destruct (correct_edges_spec_f64 raw ys xs yPad xPad) as (out & Eo & So & Io).
  { rewrite Sr0. apply ceil_div_pos; lia. }
  { rewrite Sr1. apply ceil_div_pos; lia. }
  exists out. split.
  { rewrite scaleMatrix_down_f64 by assumption.
    unfold F64.downscale. fold yPad xPad. rewrite Ep. cbn [bind].
    rewrite Er. cbn [bind]. exact Eo. }
  split; [rewrite So, (shape_eta_f64 raw), Sr0, Sr1; reflexivity|].
  intros i j Hi Hj. rewrite Io, Ir, Sr0, Sr1. f_equal. f_equal.
  apply block_ext_f64. intros yo xo Hyo Hxo.
  pose proof (padded_rows (F64.shape0 mat) ys Hy) as Pr.
  pose proof (padded_rows (F64.shape1 mat) xs Hx) as Pc.
  fold n yPad in Pr. fold m xPad in Pc.
  apply Ip; nia.
Qed.

(** X5. With [strict=False] on a grid of doubles with at least one row and
    one column, the call returns, and each cell of the result is the
    binary64 mean of its [ys]-by-[xs] block of the zero-padded grid,
    multiplied once in binary64 where lines 207-209 touch it: by
    [ys/(ys-yPad)] on the last column above the corner when rows were
    padded, by [xs/(xs-xPad)] on the last row left of the corner when
    columns were padded, by [ys*xs/(ys-yPad)/(xs-xPad)] on the corner when
    rows were padded, and left as it is elsewhere. *)
Theorem lenient_cells_binary64 (mat : F64.ndarray) (ys xs : nat) :
  0 < ys -> 0 < xs -> 1 <= F64.shape0 mat -> 1 <= F64.shape1 mat ->
  exists out,
    F64.scaleMatrix mat (ints (- Z.of_nat ys) (- Z.of_nat xs)) false = Ok out /\
    F64.shape out = (ceil_div (F64.shape0 mat) ys, ceil_div (F64.shape1 mat) xs) /\
    forall i j,
      i < ceil_div (F64.shape0 mat) ys -> j < ceil_div (F64.shape1 mat) xs ->
      F64.item out i j =
      F64.edge_corrected ys xs
        (pad_amount ys (F64.shape0 mat)) (pad_amount xs (F64.shape1 mat))
        (ceil_div (F64.shape0 mat) ys) (ceil_div (F64.shape1 mat) xs) i j
        (F64.mean (F64.block (F64.padded mat (pad_amount ys (F64.shape0 mat))
                                             (pad_amount xs (F64.shape1 mat)))
                             ys xs i j)).
Proof. apply lenient_cells_f64. Qed.

Lemma lenient_cells_binary64_witness :
  0 < 3 /\ 1 <= F64.shape0 F64Ex.example_grid /\ 1 <= F64.shape1 F64Ex.example_grid /\
  exists out,
    F64.scaleMatrix F64Ex.example_grid (ints (-3) (-3)) false = Ok out /\
    F64.shape out = (2, 2) /\
    F64.item out 0 0 = 0x1.471c71c71c71cp+1%float /\
    F64.item out 0 1 = 3%float /\
    F64.item out 1 0 = 7%float /\
    F64.item out 1 1 = 9%float.
Proof.
  assert (P : 0 < 3) by lia.
  assert (Q0 : 1 <= F64.shape0 F64Ex.example_grid) by (vm_compute; lia).
  assert (Q1 : 1 <= F64.shape1 F64Ex.example_grid) by (vm_compute; lia).
  repeat (split; [assumption|]).
  destruct (lenient_cells_binary64 F64Ex.example_grid 3 3 P P Q0 Q1)
    as (out & E & S & I).
  exists out. split; [exact E|]. split; [exact S|].
  repeat split; (rewrite I; [reflexivity | vm_compute; lia | vm_compute; lia]).
Defined.

(** X6. With [strict=False], every cell of the result outside its last row
    and last column is the binary64 mean of its [ys]-by-[xs] block of input
    cells, whatever the padding: no zero enters its sum and no correction
    touches it. *)
Theorem lenient_interior_binary64_mean (mat : F64.ndarray) (ys xs : nat) :
  0 < ys -> 0 < xs -> 1 <= F64.shape0 mat -> 1 <= F64.shape1 mat ->
  exists out,
    F64.scaleMatrix mat (ints (- Z.of_nat ys) (- Z.of_nat xs)) false = Ok out /\
    forall i j,
      i < ceil_div (F64.shape0 mat) ys - 1 -> j < ceil_div (F64.shape1 mat) xs - 1 ->
      F64.item out i j = F64.mean (F64.block mat ys xs i j).
Proof.
  intros Hy Hx Hr Hc.
  destruct (lenient_cells_f64 mat ys xs Hy Hx Hr Hc) as (out & E & _ & I).
  exists out. split; [exact E|].
  intros i j Hi Hj. rewrite I by lia.
  unfold F64.edge_corrected.
  assert (E1 : (j =? ceil_div (F64.shape1 mat) xs - 1) = false)
    by (apply Nat.eqb_neq; lia).
  assert (E2 : (i =? ceil_div (F64.shape0 mat) ys - 1) = false)
    by (apply Nat.eqb_neq; lia).
  rewrite E1, E2, !andb_false_r. cbn [andb].
  f_equal. apply block_ext_f64. intros yo xo Hyo Hxo.
  pose proof (padded_rows (F64.shape0 mat) ys Hy) as Pr.
  pose proof (padded_rows (F64.shape1 mat) xs Hx) as Pc.
  pose proof (pad_amount_lt ys (F64.shape0 mat) Hy) as Ly.
  pose proof (pad_amount_lt xs (F64.shape1 mat) Hx) as Lx.
  unfold F64.padded. cbn [F64.item].
  assert (T0 : (i * ys + yo <? F64.shape0 mat) = true) by (apply Nat.ltb_lt; nia).
  assert (T1 : (j * xs + xo <? F64.shape1 mat) = true) by (apply Nat.ltb_lt; nia).
  now rewrite T0, T1.
Qed.

Lemma lenient_interior_binary64_mean_witness :
  0 < 3 /\ 1 <= F64.shape0 F64Ex.example_grid /\ 1 <= F64.shape1 F64Ex.example_grid /\
  0 < ceil_div (F64.shape0 F64Ex.example_grid) 3 - 1 /\
  0 < ceil_div (F64.shape1 F64Ex.example_grid) 3 - 1 /\
  exists out,
    F64.scaleMatrix F64Ex.example_grid (ints (-3) (-3)) false = Ok out /\
    F64.item out 0 0 = F64.mean (F64.block F64Ex.example_grid 3 3 0 0).
Proof.
  assert (P : 0 < 3) by lia.
  assert (Q0 : 1 <= F64.shape0 F64Ex.example_grid) by (vm_compute; lia).
  assert (Q1 : 1 <= F64.shape1 F64Ex.example_grid) by (vm_compute; lia).
  assert (R0 : 0 < ceil_div (F64.shape0 F64Ex.example_grid) 3 - 1) by (vm_compute; lia).
  assert (R1 : 0 < ceil_div (F64.shape1 F64Ex.example_grid) 3 - 1) by (vm_compute; lia).
  repeat (split; [assumption|]).
  destruct (lenient_interior_binary64_mean F64Ex.example_grid 3 3 P P Q0 Q1)
    as (out & E & I).
  exists out. split; [exact E|]. exact (I 0 0 R0 R1).
Defined.
(* ------------------------------------------------------------------ *)
(** ** NumPy's own exceptions *)

(** X9. With [strict=False], a grid that has no column but a number of
    rows that [ys] does not divide, or no row but a number of columns that
    [xs] does not divide, is not scaled down to an empty grid: the integer
    index [-1] of lines 207-208 is out of bounds and NumPy's IndexError
    comes out of the call. *)
Theorem lenient_empty_axis_raises (mat : ndarray) (ys xs : nat) :
  0 < ys -> 0 < xs ->
  (shape1 mat = 0 /\ shape0 mat mod ys <> 0) \/
  (shape0 mat = 0 /\ shape1 mat mod xs <> 0) ->
  scaleMatrix mat (ints (- Z.of_nat ys) (- Z.of_nat xs)) false
  = Raise (IndexError "index -1 is out of bounds for axis with size 0").
Proof.
  intros Hy Hx Hcase.
  rewrite scaleMatrix_down by assumption.
  destruct (downscale_lenient_stages mat ys xs Hy Hx)
    as (p & raw & _ & Sp & _ & Sr & _ & Ed).
  rewrite Ed. clear Ed.
  assert (Sp0 : shape0 p = shape0 mat + pad_amount ys (shape0 mat))
    by (unfold shape0 at 1; now rewrite Sp).
  assert (Sp1 : shape1 p = shape1 mat + pad_amount xs (shape1 mat))
    by (unfold shape1 at 1; now rewrite Sp).
  assert (Sr0 : shape0 raw = (shape0 mat + pad_amount ys (shape0 mat)) / ys)
    by (unfold shape0 at 1; now rewrite Sr, Sp0).
  assert (Sr1 : shape1 raw = (shape1 mat + pad_amount xs (shape1 mat)) / xs)
    by (unfold shape1 at 1; now rewrite Sr, Sp1).
  pose proof (pad_amount_zero ys (shape0 mat) Hy) as Zy.
  pose proof (pad_amount_zero xs (shape1 mat) Hx) as Zx.
  unfold correct_edges, np.imul.
  destruct Hcase as [[Hc Hr]|[Hr Hc]].
  - assert (Py : 0 < pad_amount ys (shape0 mat)) by lia.
    assert (Px : pad_amount xs (shape1 mat) = 0).
    { apply Zx. rewrite Hc. now apply Nat.Div0.mod_0_l. }
    apply Nat.ltb_lt in Py. rewrite Py.
    rewrite Sr1, Px, Hc. cbn [Nat.add].
    rewrite Nat.Div0.div_0_l. cbn [np.index_ok Nat.ltb Nat.leb andb bind].
    reflexivity.
  - assert (Px : 0 < pad_amount xs (shape1 mat)) by lia.
    assert (Py : pad_amount ys (shape0 mat) = 0).
    { apply Zy. rewrite Hr. now apply Nat.Div0.mod_0_l. }
    apply Nat.ltb_lt in Px. rewrite Px, Py. cbn [Nat.ltb Nat.leb bind].
    rewrite Sr0, Py, Hr. cbn [Nat.add].
    rewrite Nat.Div0.div_0_l. cbn [np.index_ok Nat.ltb Nat.leb andb bind].
    reflexivity.
Qed.

Lemma lenient_empty_axis_raises_witness :
  0 < 2 /\
  ((shape1 grid_3x0 = 0 /\ shape0 grid_3x0 mod 2 <> 0) \/
   (shape0 grid_3x0 = 0 /\ shape1 grid_3x0 mod 2 <> 0)) /\
  scaleMatrix grid_3x0 (ints (-2) (-2)) false
  = Raise (IndexError "index -1 is out of bounds for axis with size 0").
Proof.
  assert (P : 0 < 2) by lia.
  assert (Q : (shape1 grid_3x0 = 0 /\ shape0 grid_3x0 mod 2 <> 0) \/
              (shape0 grid_3x0 = 0 /\ shape1 grid_3x0 mod 2 <> 0))
    by (left; split; [reflexivity | vm_compute; discriminate]).
  repeat (split; [assumption|]).
  exact (lenient_empty_axis_raises grid_3x0 2 2 P P Q).
Defined.

(* ------------------------------------------------------------------ *)
(** ** How calls compose *)

(** X10. Scaling up by [(a, b)] and then by [(c, d)] gives the grid that
    scaling up by [(a*c, b*d)] gives. *)
Theorem upscale_compose (mat : ndarray) (a b c d : nat) (strict : bool) :
  0 < a -> 0 < b -> 0 < c -> 0 < d ->
  exists up1 up2 direct,
    scaleMatrix mat (ints (Z.of_nat a) (Z.of_nat b)) strict = Ok up1 /\
    scaleMatrix up1 (ints (Z.of_nat c) (Z.of_nat d)) strict = Ok up2 /\
    scaleMatrix mat (ints (Z.of_nat (a * c)) (Z.of_nat (b * d))) strict = Ok direct /\
    array_equal up2 direct.
Proof.
  intros Ha Hb Hc Hd.
  rewrite !scaleMatrix_up by nia.
  destruct (upscale_spec mat a b Ha Hb) as (up1 & E1 & S1 & I1).
  assert (S10 : shape0 up1 = shape0 mat * a) by (unfold shape0 at 1; now rewrite S1).
  assert (S11 : shape1 up1 = shape1 mat * b) by (unfold shape1 at 1; now rewrite S1).
  destruct (upscale_spec up1 c d Hc Hd) as (up2 & E2 & S2 & I2).
  destruct (upscale_spec mat (a * c) (b * d)) as (dir & E3 & S3 & I3); [nia | nia |].
  exists up1, up2, dir. split; [exact E1|].
  rewrite scaleMatrix_up by assumption.
  split; [exact E2|]. split; [exact E3|].
  assert (Seq : shape up2 = shape dir).
  { rewrite S2, S3, S10, S11. f_equal; lia. }
  split; [exact Seq|].
  unfold shape0 at 1, shape1 at 1. rewrite S2, S10, S11. cbn [fst snd].
  intros r s Hr Hs.
  rewrite I2 by (rewrite ?S10, ?S11; assumption).
  assert (Lr : r / c < shape0 mat * a).
  { apply Nat.Div0.div_lt_upper_bound. lia. }
  assert (Ls : s / d < shape1 mat * b).
  { apply Nat.Div0.div_lt_upper_bound. lia. }
  rewrite I1 by assumption.
  rewrite I3 by lia.
  rewrite !Nat.Div0.div_div, (Nat.mul_comm c a), (Nat.mul_comm d b).
  reflexivity.
Qed.

Lemma upscale_compose_witness :
  0 < 2 /\ 0 < 3 /\
  exists up1 up2 direct,
    scaleMatrix grid_2x2 (ints 2 3) true = Ok up1 /\
    scaleMatrix up1 (ints 3 2) true = Ok up2 /\
    scaleMatrix grid_2x2 (ints 6 6) true = Ok direct /\
    array_equal up2 direct.
Proof.
  assert (P2 : 0 < 2) by lia.
  assert (P3 : 0 < 3) by lia.
  repeat (split; [assumption|]).
  exact (upscale_compose grid_2x2 2 3 3 2 true P2 P3 P3 P2).
Defined.

(* ------------------------------------------------------------------ *)
(** ** The amount of padding *)

(** X13. Lines 190-194 compute the least number of rows (or columns) that
    brings a dimension to a multiple of the factor: the padded dimension is
    divisible, the padding is smaller than the factor, and no smaller
    padding would do. *)
Theorem pad_amount_least (scale n : nat) :
  0 < scale ->
  (n + pad_amount scale n) mod scale = 0 /\
  pad_amount scale n < scale /\
  forall p, (n + p) mod scale = 0 -> pad_amount scale n <= p.
Proof.
  intros Hs. split; [now apply pad_amount_divisible|].
  split; [now apply pad_amount_lt|].
  intros p Hp. unfold pad_amount.
  pose proof (Nat.div_mod_eq n scale) as E.
  pose proof (Nat.mod_upper_bound n scale ltac:(lia)) as B.
  pose proof (Nat.div_mod_eq (n + p) scale) as Ep. rewrite Hp in Ep.
  destruct (Nat.eqb_spec (scale - n mod scale) scale); [lia|].
  destruct (Nat.lt_ge_cases p (scale - n mod scale)) as [Hlt|Hge]; [|exact Hge].
  exfalso.
  assert (Hq : scale * ((n + p) / scale) = scale * (n / scale) + (n mod scale + p)) by lia.
  assert (Hw : (n + p) / scale = n / scale \/ (n + p) / scale < n / scale
               \/ n / scale < (n + p) / scale) by lia.
  destruct Hw as [Hw|[Hw|Hw]]; nia.
Qed.

Lemma pad_amount_least_witness :
  0 < 3 /\
  (4 + pad_amount 3 4) mod 3 = 0 /\ pad_amount 3 4 < 3 /\
  forall p, (4 + p) mod 3 = 0 -> pad_amount 3 4 <= p.
Proof.
  assert (P : 0 < 3) by lia.
  split; [exact P|]. exact (pad_amount_least 3 4 P).
Defined.

(* ------------------------------------------------------------------ *)
(** ** What a call allocates *)

Lemma Obj_scaleMatrix_up r ys xs strict :
  0 < ys -> 0 < xs ->
  Obj.scaleMatrix r (ints (Z.of_nat ys) (Z.of_nat xs)) strict
  = Obj.upscale r ys xs.
Proof.
  intros Hy Hx. unfold Obj.scaleMatrix, ints, unpack.
  destruct (Z.eqb_spec (Z.of_nat xs) 0); [lia|].
  destruct (Z.gtb_spec (Z.of_nat xs) 0); [|lia].
  destruct (Z.gtb_spec (Z.of_nat ys) 0); [|lia].
  cbn [andb]. now rewrite !Nat2Z.id.
Qed.

(** X14. On the store, scaling up allocates exactly one array, the result;
    scaling down by factors that divide the dimensions allocates exactly
    two, the accumulator of lines 200-203 and then the result of line 204. *)
Theorem allocations (H : Obj.heap) (mat : Obj.ref) (ys xs : nat) (strict : bool) :
  mat < length H -> 0 < ys -> 0 < xs ->
  (exists out,
     scaleMatrix (Obj.deref H mat) (ints (Z.of_nat ys) (Z.of_nat xs)) strict
       = Ok out /\
     Obj.scaleMatrix mat (ints (Z.of_nat ys) (Z.of_nat xs)) strict H
       = (Ok (length H), H ++ [out])) /\
  (shape0 (Obj.deref H mat) mod ys = 0 ->
   shape1 (Obj.deref H mat) mod xs = 0 ->
   exists acc out,
     scaleMatrix (Obj.deref H mat) (ints (- Z.of_nat ys) (- Z.of_nat xs)) strict
       = Ok out /\
     Obj.scaleMatrix mat (ints (- Z.of_nat ys) (- Z.of_nat xs)) strict H
       = (Ok (S (length H)), H ++ [acc; out])).
Proof.
  intros Hm Hy Hx. split.
  - rewrite scaleMatrix_up, Obj_scaleMatrix_up by assumption.
    destruct (upscale_spec (Obj.deref H mat) ys xs Hy Hx) as (out & E & _).
    destruct (ObjFacts.upscale_refines H mat ys xs Hm) as (a' & Er & O).
    exists out. split; [exact E|].
    rewrite Er, E, (O out E). reflexivity.
  - intros Hr Hc.
    rewrite scaleMatrix_down, Obj_scaleMatrix_down, downscale_exact by assumption.
    destruct (block_average_spec (Obj.deref H mat) ys xs Hy Hx Hr Hc)
      as (out & E & _).
    destruct (ObjFacts.block_average_refines H mat ys xs Hm) as (acc & Eb).
    rewrite E in Eb.
    exists acc, out. split; [exact E|].
    assert (Ez : Obj.zero_pad mat 0 0 H = (Ok mat, H)) by reflexivity.
    assert (Et : Obj.bind (Obj.block_average mat ys xs) (fun o =>
                   Obj.bind (Obj.correct_edges o ys xs 0 0) (fun _ => Obj.ret o)) H
                 = (Ok (S (length H)), H ++ [acc; out])).
    { unfold Obj.bind at 1. rewrite Eb.
      unfold Obj.correct_edges. cbn [Nat.ltb Nat.leb].
      unfold Obj.bind, Obj.ret.
      rewrite length_app, <- app_assoc. cbn [length app].
      rewrite Nat.add_1_r. reflexivity. }
    unfold Obj.downscale. destruct strict.
    + unfold Obj.bind at 1. unfold Obj.bind at 1, Obj.shape, Obj.bind at 1,
        Obj.load, Obj.ret.
      fold (shape0 (Obj.deref H mat)) (shape1 (Obj.deref H mat)).
      rewrite Hr, Hc. cbn [Nat.eqb andb negb]. exact Et.
    + unfold Obj.bind at 1. unfold Obj.bind at 1, Obj.shape, Obj.bind at 1,
        Obj.load, Obj.ret. cbv zeta.
      fold (shape0 (Obj.deref H mat)) (shape1 (Obj.deref H mat)).
      apply (pad_amount_zero ys _ Hy) in Hr. apply (pad_amount_zero xs _ Hx) in Hc.
      rewrite Hr, Hc. unfold Obj.bind at 1. rewrite Ez. exact Et.
Qed.

Lemma allocations_witness :
  0 < length [example_grid] /\ 0 < 2 /\
  (exists out,
     scaleMatrix (Obj.deref [example_grid] 0) (ints 2 2) true = Ok out /\
     Obj.scaleMatrix 0 (ints 2 2) true [example_grid]
       = (Ok (length [example_grid]), [example_grid] ++ [out])) /\
  (exists acc out,
     scaleMatrix (Obj.deref [example_grid] 0) (ints (-2) (-2)) true = Ok out /\
     Obj.scaleMatrix 0 (ints (-2) (-2)) true [example_grid]
       = (Ok (S (length [example_grid])), [example_grid] ++ [acc; out])).
Proof.
  assert (L : 0 < length [example_grid]) by (simpl; lia).
  assert (P : 0 < 2) by lia.
  destruct (allocations [example_grid] 0 2 2 true L P P) as [A B].
  repeat (split; [assumption|]).
  apply B; reflexivity.
Defined.

(* ------------------------------------------------------------------ *)
(** ** When [strict] matters *)

(** X19. [strict] changes the outcome of a call only for negative integer
    factors that do not divide the dimensions: in every other case the
    call with [strict=True] and the call with [strict=False] return the
    same grid or raise the same exception. *)
Theorem strict_only_matters_when_not_divisible (mat : ndarray) (scale : scale_arg) :
  (forall ys xs, 0 < ys -> 0 < xs ->
     unpack scale = (PyInt (- Z.of_nat ys), PyInt (- Z.of_nat xs)) ->
     shape0 mat mod ys = 0 /\ shape1 mat mod xs = 0) ->
  scaleMatrix mat scale true = scaleMatrix mat scale false.
Proof.
  intros Hdiv.
  destruct (unpack scale) as [[y|] [x|]] eqn:Eu;
    try (unfold scaleMatrix; rewrite Eu; reflexivity).
  rewrite !(scaleMatrix_unpack mat scale _ y x Eu).
  destruct (scaleMatrix_cases mat y x true)
    as [(-> & -> & _)|[(ys & xs & Hy & Hx & -> & -> & _)
       |[(ys & xs & Hy & Hx & -> & -> & _)|(H1 & H2 & H3 & E)]]].
  - reflexivity.
  - now rewrite !scaleMatrix_up.
  - destruct (Hdiv ys xs Hy Hx eq_refl) as [Hr Hc].
    now rewrite !scaleMatrix_down, !downscale_exact.
  - rewrite E. symmetry.
    destruct (scaleMatrix_cases mat y x false)
      as [(? & ? & _)|[(ys & xs & Hy & Hx & ? & ? & _)
         |[(ys & xs & Hy & Hx & ? & ? & _)|(_ & _ & _ & E')]]];
      try lia. exact E'.
Qed.

Lemma strict_only_matters_when_not_divisible_witness :
  (forall ys xs, 0 < ys -> 0 < xs ->
     unpack (ints (-2) (-2)) = (PyInt (- Z.of_nat ys), PyInt (- Z.of_nat xs)) ->
     shape0 example_grid mod ys = 0 /\ shape1 example_grid mod xs = 0) /\
  scaleMatrix example_grid (ints (-2) (-2)) true
  = scaleMatrix example_grid (ints (-2) (-2)) false.
Proof.
  assert (P : forall ys xs, 0 < ys -> 0 < xs ->
     unpack (ints (-2) (-2)) = (PyInt (- Z.of_nat ys), PyInt (- Z.of_nat xs)) ->
     shape0 example_grid mod ys = 0 /\ shape1 example_grid mod xs = 0).
  { intros ys xs _ _ E. unfold ints, unpack in E.
    assert (Ey : ys = 2) by (injection E; lia).
    assert (Ex : xs = 2) by (injection E; lia).
    subst. split; reflexivity. }
  split; [exact P|].
  exact (strict_only_matters_when_not_divisible example_grid (ints (-2) (-2)) P).
Defined.

(* ------------------------------------------------------------------ *)
(** ** isclose *)

(** X15. [isclose] does not depend on the order of the two numbers. *)
Theorem isclose_sym (a b rel_tol abs_tol : Q) :
  isclose a b rel_tol abs_tol = isclose b a rel_tol abs_tol.
Proof.
  unfold isclose. rewrite (Qabs_Qminus a b).
  apply Qleb_comp; [reflexivity|].
  now rewrite (Q.max_comm (Qabs a) (Qabs b)).
Qed.
